(** * jest-fuzzer: the generator engine and the test harness adapter

    A shallow embedding of [src/index.ts].

    - JavaScript numbers are IEEE-754 binary64 values: they are Rocq's
      primitive [float]s, so [*], [+] and [<] below are the very operations
      the source performs, rounding included.
    - [Math.random()] reads the next sample of a raw source; the source is an
      oracle [nat -> number] with a cursor, threaded through every call.
    - A JavaScript call may draw samples, mutate the caller's heap and throw:
      computations live in a state-and-exception monad over the raw source and
      a heap of the caller's choosing.
    - [test(name, body)] of the host runner appends to a registry of units. *)

From Stdlib Require Import Floats ZArith List Bool Lia String Ascii.
Import ListNotations.

Set Implicit Arguments.

(* ================================================================= *)
(** ** Outcomes and the state-and-exception monad *)

(** What a [throw] carries: the engine's own [RangeError] (an invalid array
    length) or a value raised by caller code. *)
Inductive exn : Type :=
| RangeError
| Raised (payload : nat).

Inductive outcome (A : Type) : Type :=
| Ok (a : A)
| Throw (e : exn).

Arguments Ok {A} a.
Arguments Throw {A} e.

Definition SE (S A : Type) : Type := S -> outcome A * S.

Definition ret {S A : Type} (a : A) : SE S A := fun s => (Ok a, s).

Definition throw {S A : Type} (e : exn) : SE S A := fun s => (Throw e, s).

Definition bind {S A B : Type} (m : SE S A) (k : A -> SE S B) : SE S B :=
  fun s =>
    match m s with
    | (Ok a, s') => k a s'
    | (Throw e, s') => (Throw e, s')
    end.

Declare Scope se_scope.
Delimit Scope se_scope with se.
Notation "x <- c1 ;; c2" := (bind c1 (fun x => c2))
  (at level 61, c1 at next level, right associativity) : se_scope.
Notation "c1 ;;; c2" := (bind c1 (fun _ => c2))
  (at level 61, right associativity) : se_scope.
Open Scope se_scope.

(** [for (let i = 0; i < n; i += 1) body(i)] *)
Fixpoint for_from {S : Type} (i count : nat) (body : nat -> SE S unit) : SE S unit :=
  match count with
  | O => ret tt
  | Datatypes.S c => body i ;;; for_from (Datatypes.S i) c body
  end.

Definition for_lt {S : Type} (n : nat) (body : nat -> SE S unit) : SE S unit :=
  for_from 0 n body.

(** [arr.map(cb)]: the callback runs once per slot, in index order. *)
Fixpoint Array_map {S A B : Type} (cb : A -> SE S B) (arr : list A) : SE S (list B) :=
  match arr with
  | [] => ret []
  | x :: rest =>
      y <- cb x ;;
      ys <- Array_map cb rest ;;
      ret (y :: ys)
  end.

(* ================================================================= *)
(** ** Numbers *)

Definition number : Type := float.

Bind Scope float_scope with number.

Definition MAX_SAFE_INTEGER : number := 9007199254740991%float.
Definition MIN_SAFE_INTEGER : number := (-9007199254740991)%float.

(** The integer [z] as a number, with the sign [szero] when it is zero. *)
Definition of_integer (z : Z) (szero : bool) : number :=
  SF2Prim (binary_normalize prec emax z 0 szero).

(** [Math.floor]: NaN, the infinities, the zeros and integral values are
    returned as they are. *)
Definition Math_floor (x : number) : number :=
  match Prim2SF x with
  | S754_finite s m e =>
      if (0 <=? e)%Z then x
      else of_integer (cond_Zopp s (Zpos m) / 2 ^ (- e))%Z s
  | _ => x
  end.

(** [Math.ceil]; [Math.ceil(-0.5)] is [-0]. *)
Definition Math_ceil (x : number) : number :=
  match Prim2SF x with
  | S754_finite s m e =>
      if (0 <=? e)%Z then x
      else of_integer (- (cond_Zopp (negb s) (Zpos m) / 2 ^ (- e)))%Z s
  | _ => x
  end.

(** The mathematical integer of an integral number, [None] for a number with
    a fraction, NaN and the infinities. *)
Definition integer_value (x : number) : option Z :=
  match Prim2SF x with
  | S754_zero _ => Some 0%Z
  | S754_finite s m e =>
      if (0 <=? e)%Z then Some (cond_Zopp s (Zpos m * 2 ^ e))%Z
      else if (Zpos m mod 2 ^ (- e) =? 0)%Z
           then Some (cond_Zopp s (Zpos m / 2 ^ (- e)))%Z
           else None
  | _ => None
  end.

(** [ToUint16], as [String.fromCharCode] applies it to its argument. *)
Definition ToUint16 (x : number) : Z :=
  match Prim2SF x with
  | S754_finite s m e =>
      let magnitude := if (0 <=? e)%Z then (Zpos m * 2 ^ e)%Z
                       else (Zpos m / 2 ^ (- e))%Z in
      (cond_Zopp s magnitude mod 65536)%Z
  | _ => 0%Z
  end.

(** A sample as [Math.random()] may return it: [0 <= p < 1]. *)
Definition unit_interval (p : number) : bool :=
  ((0 <=? p) && (p <? 1))%float.

(* ================================================================= *)
(** ** Strings: sequences of UTF-16 code units *)

Definition js_string : Type := list Z.

Definition js (s : String.string) : js_string :=
  List.map (fun c => Z.of_N (N_of_ascii c)) (list_ascii_of_string s).

Definition String_fromCharCode (code : number) : js_string := [ToUint16 code].

(** [parts.join("")] *)
Definition join (parts : list js_string) : js_string := List.concat parts.

(** [ToString], as a template literal applies it to an interpolated value. *)
Class ToString (A : Type) : Type := to_string : A -> js_string.

#[export] Instance ToString_js_string : ToString js_string := fun s => s.

(* ================================================================= *)
(** ** The raw source and the world *)

Record Source : Type := mkSource {
  oracle : nat -> number;
  cursor : nat
}.

(** The world a call runs in: the raw source and the caller's heap. *)
Record world (U : Type) : Type := mkWorld {
  rand : Source;
  heap : U
}.

Definition advance (src : Source) : Source :=
  mkSource (oracle src) (Datatypes.S (cursor src)).

(** The world after [n] more draws. *)
Definition drawn {U : Type} (n : nat) (w : world U) : world U :=
  mkWorld (mkSource (oracle (rand w)) (n + cursor (rand w))) (heap w).

(** The sample the [i]-th next draw returns. *)
Definition upcoming {U : Type} (w : world U) (i : nat) : number :=
  oracle (rand w) (i + cursor (rand w)).

(** Every sample of the source is one [Math.random()] may return. *)
Definition fair (src : Source) : Prop :=
  forall n, unit_interval (oracle src n) = true.

(** A source that repeats the samples of [l] for ever. *)
Definition cycle (l : list number) : Source :=
  mkSource (fun n => nth (n mod List.length l) l 0%float) 0.

Definition Gen (U A : Type) : Type := SE (world U) A.

Definition Math_random {U : Type} : Gen U number :=
  fun w => (Ok (oracle (rand w) (cursor (rand w))),
            mkWorld (advance (rand w)) (heap w)).

(* ================================================================= *)
(** ** The generator engine: [class Fuzzer<A>] *)

Record Fuzzer (U A : Type) : Type := mkFuzzer {
  generator : number -> Gen U A
}.

(** [fuzzer[$generate]()] *)
Definition generate {U A : Type} (fuzzer : Fuzzer U A) : Gen U A :=
  prng <- Math_random ;; generator fuzzer prng.

(** [Array(length).fill(null)]: a length that is not an integer in
    [0, 2^32) is a [RangeError]. *)
Definition Array_fill_null {S : Type} (length : number) : SE S (list unit) :=
  match integer_value length with
  | Some n => if (0 <=? n)%Z && (n <? 4294967296)%Z
              then ret (repeat tt (Z.to_nat n))
              else throw RangeError
  | None => throw RangeError
  end.

Section Engine.

Variable U : Type.

(** The [**] operator. ECMAScript leaves its result implementation-
    approximated, so it is a parameter of the engine. *)
Variable exponentiate : number -> number -> number.

Definition int : Fuzzer U number :=
  mkFuzzer (fun prng =>
    let weightedPrng := exponentiate prng 30 in
    if (prng <? 0.5)%float
    then ret (Math_ceil (weightedPrng * MIN_SAFE_INTEGER)%float)
    else ret (Math_floor (weightedPrng * MAX_SAFE_INTEGER)%float)).

Definition intRange (min max : number) : Fuzzer U number :=
  mkFuzzer (fun prng => ret (Math_floor (prng * (max + 1 - min) + min)%float)).

Definition float : Fuzzer U number :=
  mkFuzzer (fun prng => i <- generate int ;; ret (i + prng)%float).

Definition string : Fuzzer U js_string :=
  mkFuzzer (fun prng =>
    let length := Math_floor (100 * prng)%float in
    holes <- Array_fill_null length ;;
    chars <- Array_map (fun _ =>
               char <- generate (intRange 32 126) ;;
               ret (String_fromCharCode char)) holes ;;
    ret (join chars)).

Definition constant {A : Type} (value : A) : Fuzzer U A :=
  mkFuzzer (fun _prng => ret value).

Definition array {A : Type} (fuzzer : Fuzzer U A) : Fuzzer U (list A) :=
  mkFuzzer (fun prng =>
    let length := Math_floor (100 * exponentiate prng 30)%float in
    holes <- Array_fill_null length ;;
    Array_map (fun _ => generate fuzzer) holes).

(** *** [map] .. [map8]: arguments are evaluated left to right, then [func]
    is called. *)

Definition map {A B : Type} (fuzzer : Fuzzer U A) (func : A -> Gen U B)
  : Fuzzer U B :=
  mkFuzzer (fun _prng => a <- generate fuzzer ;; func a).

Definition map2 {A B C : Type} (fuzzerA : Fuzzer U A) (fuzzerB : Fuzzer U B)
    (func : A -> B -> Gen U C) : Fuzzer U C :=
  mkFuzzer (fun _prng =>
    a <- generate fuzzerA ;;
    b <- generate fuzzerB ;;
    func a b).

Definition map3 {A B C D : Type} (fuzzerA : Fuzzer U A) (fuzzerB : Fuzzer U B)
    (fuzzerC : Fuzzer U C) (func : A -> B -> C -> Gen U D) : Fuzzer U D :=
  mkFuzzer (fun _prng =>
    a <- generate fuzzerA ;;
    b <- generate fuzzerB ;;
    c <- generate fuzzerC ;;
    func a b c).

Definition map4 {A B C D E : Type} (fuzzerA : Fuzzer U A) (fuzzerB : Fuzzer U B)
    (fuzzerC : Fuzzer U C) (fuzzerD : Fuzzer U D)
    (func : A -> B -> C -> D -> Gen U E) : Fuzzer U E :=
  mkFuzzer (fun _prng =>
    a <- generate fuzzerA ;;
    b <- generate fuzzerB ;;
    c <- generate fuzzerC ;;
    d <- generate fuzzerD ;;
    func a b c d).

Definition map5 {A B C D E F : Type} (fuzzerA : Fuzzer U A)
    (fuzzerB : Fuzzer U B) (fuzzerC : Fuzzer U C) (fuzzerD : Fuzzer U D)
    (fuzzerE : Fuzzer U E) (func : A -> B -> C -> D -> E -> Gen U F)
  : Fuzzer U F :=
  mkFuzzer (fun _prng =>
    a <- generate fuzzerA ;;
    b <- generate fuzzerB ;;
    c <- generate fuzzerC ;;
    d <- generate fuzzerD ;;
    e <- generate fuzzerE ;;
    func a b c d e).

Definition map6 {A B C D E F G : Type} (fuzzerA : Fuzzer U A)
    (fuzzerB : Fuzzer U B) (fuzzerC : Fuzzer U C) (fuzzerD : Fuzzer U D)
    (fuzzerE : Fuzzer U E) (fuzzerF : Fuzzer U F)
    (func : A -> B -> C -> D -> E -> F -> Gen U G) : Fuzzer U G :=
  mkFuzzer (fun _prng =>
    a <- generate fuzzerA ;;
    b <- generate fuzzerB ;;
    c <- generate fuzzerC ;;
    d <- generate fuzzerD ;;
    e <- generate fuzzerE ;;
    f <- generate fuzzerF ;;
    func a b c d e f).

Definition map7 {A B C D E F G H : Type} (fuzzerA : Fuzzer U A)
    (fuzzerB : Fuzzer U B) (fuzzerC : Fuzzer U C) (fuzzerD : Fuzzer U D)
    (fuzzerE : Fuzzer U E) (fuzzerF : Fuzzer U F) (fuzzerG : Fuzzer U G)
    (func : A -> B -> C -> D -> E -> F -> G -> Gen U H) : Fuzzer U H :=
  mkFuzzer (fun _prng =>
    a <- generate fuzzerA ;;
    b <- generate fuzzerB ;;
    c <- generate fuzzerC ;;
    d <- generate fuzzerD ;;
    e <- generate fuzzerE ;;
    f <- generate fuzzerF ;;
    g <- generate fuzzerG ;;
    func a b c d e f g).

Definition map8 {A B C D E F G H I : Type} (fuzzerA : Fuzzer U A)
    (fuzzerB : Fuzzer U B) (fuzzerC : Fuzzer U C) (fuzzerD : Fuzzer U D)
    (fuzzerE : Fuzzer U E) (fuzzerF : Fuzzer U F) (fuzzerG : Fuzzer U G)
    (fuzzerH : Fuzzer U H)
    (func : A -> B -> C -> D -> E -> F -> G -> H -> Gen U I) : Fuzzer U I :=
  mkFuzzer (fun _prng =>
    a <- generate fuzzerA ;;
    b <- generate fuzzerB ;;
    c <- generate fuzzerC ;;
    d <- generate fuzzerD ;;
    e <- generate fuzzerE ;;
    f <- generate fuzzerF ;;
    g <- generate fuzzerG ;;
    h <- generate fuzzerH ;;
    func a b c d e f g h).

(** [andThen] makes no [new Fuzzer]: its body runs when [andThen] is
    called, so the call itself is a computation that draws from the raw
    source and returns what [callback] returns. *)
Definition andThen {A B : Type} (fuzzer : Fuzzer U A)
    (callback : A -> Gen U (Fuzzer U B)) : Gen U (Fuzzer U B) :=
  a <- generate fuzzer ;; callback a.

(* =============================================================== *)
(** ** The test harness adapter *)

Definition TEST_PASSES : nat := 100.

(** The units the host runner holds: a name and a body each. *)
Definition registry : Type := list (js_string * Gen U unit).

Definition Reg (A : Type) : Type := SE (world U * registry) A.

(** A call that does not register runs on the world and leaves the
    registry alone. *)
Definition lift {A : Type} (m : Gen U A) : Reg A :=
  fun '(w, units) => let '(r, w') := m w in (r, (w', units)).

(** [test(name, body)] of the host runner: [body] is kept for later. *)
Definition test (name : js_string) (body : Gen U unit) : Reg unit :=
  fun '(w, units) => (Ok tt, (w, units ++ [(name, body)])).

Definition fuzz {A : Type} (fuzzer : Fuzzer U A) (desc : js_string)
    (func : A -> Gen U unit) : Reg unit :=
  test desc
    (for_lt TEST_PASSES (fun _i => a <- generate fuzzer ;; func a)).

Definition fuzz2 {A B : Type} (fuzzerA : Fuzzer U A) (fuzzerB : Fuzzer U B)
    (desc : js_string) (func : A -> B -> Gen U unit) : Reg unit :=
  test desc
    (for_lt TEST_PASSES (fun _i =>
       a <- generate fuzzerA ;;
       b <- generate fuzzerB ;;
       func a b)).

Definition fuzz3 {A B C : Type} (fuzzerA : Fuzzer U A) (fuzzerB : Fuzzer U B)
    (fuzzerC : Fuzzer U C) (desc : js_string)
    (func : A -> B -> C -> Gen U unit) : Reg unit :=
  test desc
    (for_lt TEST_PASSES (fun _i =>
       a <- generate fuzzerA ;;
       b <- generate fuzzerB ;;
       c <- generate fuzzerC ;;
       func a b c)).

(** The names of the explained units: the template literals of the
    source. *)
Definition name1 {A : Type} `{ToString A} (desc : js_string) (a : A)
  : js_string :=
  desc ++ 10%Z :: js "Value #1: " ++ to_string a.

Definition name2 {A B : Type} `{ToString A} `{ToString B}
    (desc : js_string) (a : A) (b : B) : js_string :=
  desc ++ 10%Z :: js "Value #1: " ++ to_string a
       ++ 10%Z :: js "Value #2: " ++ to_string b.

Definition name3 {A B C : Type} `{ToString A} `{ToString B} `{ToString C}
    (desc : js_string) (a : A) (b : B) (c : C) : js_string :=
  desc ++ 10%Z :: js "Value #1: " ++ to_string a
       ++ 10%Z :: js "Value #2: " ++ to_string b
       ++ 10%Z :: js "Value #3: " ++ to_string c.

Definition fuzzExplained {A : Type} `{ToString A} (fuzzer : Fuzzer U A)
    (desc : js_string) (func : A -> Gen U unit) : Reg unit :=
  for_lt TEST_PASSES (fun _i =>
    a <- lift (generate fuzzer) ;;
    test (name1 desc a) (func a)).

Definition fuzz2Explained {A B : Type} `{ToString A} `{ToString B}
    (fuzzerA : Fuzzer U A) (fuzzerB : Fuzzer U B) (desc : js_string)
    (func : A -> B -> Gen U unit) : Reg unit :=
  for_lt TEST_PASSES (fun _i =>
    a <- lift (generate fuzzerA) ;;
    b <- lift (generate fuzzerB) ;;
    test (name2 desc a b) (func a b)).

Definition fuzz3Explained {A B C : Type} `{ToString A} `{ToString B}
    `{ToString C} (fuzzerA : Fuzzer U A) (fuzzerB : Fuzzer U B)
    (fuzzerC : Fuzzer U C) (desc : js_string)
    (func : A -> B -> C -> Gen U unit) : Reg unit :=
  for_lt TEST_PASSES (fun _i =>
    a <- lift (generate fuzzerA) ;;
    b <- lift (generate fuzzerB) ;;
    c <- lift (generate fuzzerC) ;;
    test (name3 desc a b c) (func a b c)).

End Engine.

Arguments int {U} exponentiate.
Arguments intRange {U} min max.
Arguments float {U} exponentiate.
Arguments string {U}.
Arguments constant {U A} value.
Arguments array {U} exponentiate {A} fuzzer.
Arguments TEST_PASSES : simpl never.

(* ================================================================= *)
(** ** Vocabulary of the properties *)

(** [n] successive generations of [fuzzer]: the values in the order they were
    generated, and the world they leave. *)
Definition generations {U A : Type} (fuzzer : Fuzzer U A) (n : nat)
  : Gen U (list A) :=
  Array_map (fun _ => generate fuzzer) (repeat tt n).

(** [n] repetitions of [step], as the batched harness promises them: each one
    starts in the world the previous one left, and the first failure ends the
    run with that failure. *)
Inductive Repetitions {S : Type} (step : SE S unit)
  : nat -> S -> outcome unit * S -> Prop :=
| Rep_done : forall s, Repetitions step 0 s (Ok tt, s)
| Rep_pass : forall n s s1 r,
    step s = (Ok tt, s1) ->
    Repetitions step n s1 r ->
    Repetitions step (Datatypes.S n) s r
| Rep_fail : forall n s e s1,
    step s = (Throw e, s1) ->
    Repetitions step (Datatypes.S n) s (Throw e, s1).

(** A check function that counts its calls in a heap that is a counter. *)
Definition count_call {A : Type} (_ : A) : Gen nat unit :=
  fun w => (Ok tt, mkWorld (rand w) (Datatypes.S (heap w))).


(** A check function that fails on the values [bad] holds of and counts
    the calls that pass. *)
Definition reject {A : Type} (bad : A -> bool) (a : A) : Gen nat unit :=
  fun w => if bad a
           then (Throw (Raised 0), w)
           else (Ok tt, mkWorld (rand w) (Datatypes.S (heap w))).

(** [n] rounds of two (three) fuzzers: in each round [fuzzerA] generates
    first. *)
Definition generations2 {U A B : Type} (fuzzerA : Fuzzer U A)
    (fuzzerB : Fuzzer U B) (n : nat) : Gen U (list (A * B)) :=
  Array_map (fun _ => a <- generate fuzzerA ;;
                      b <- generate fuzzerB ;;
                      ret (a, b)) (repeat tt n).

Definition generations3 {U A B C : Type} (fuzzerA : Fuzzer U A)
    (fuzzerB : Fuzzer U B) (fuzzerC : Fuzzer U C) (n : nat)
  : Gen U (list (A * B * C)) :=
  Array_map (fun _ => a <- generate fuzzerA ;;
                      b <- generate fuzzerB ;;
                      c <- generate fuzzerC ;;
                      ret (a, b, c)) (repeat tt n).

(** A fuzzer whose generation draws one sample and returns [value_of] of
    it, as [intRange], [int] and [constant] do. *)
Definition one_draw {U A : Type} (g : Fuzzer U A) (value_of : number -> A)
  : Prop :=
  forall w : world U, generate g w = (Ok (value_of (upcoming w 0)), drawn 1 w).

(* ================================================================= *)
(** ** Binary64 arithmetic on scaled integers

    A finite binary64 value is an integer number of units of [2^-1074].
    The definitions below state, on these integers, what the operations of
    [SpecFloat] compute; the lemmas that follow prove it. *)

Section Scaled.

Local Open Scope Z_scope.

(** ** Round to nearest, ties to even, on scaled integers *)

(** [n / 2^k] rounded to the nearest integer, ties to even; [n] is not
    negative. *)
Definition rne_shift (n k : Z) : Z :=
  if k <=? 0 then n
  else
    let q := n / 2 ^ k in
    let r := n mod 2 ^ k in
    let h := 2 ^ (k - 1) in
    if r <? h then q
    else if h <? r then q + 1
    else if Z.even q then q else q + 1.

(** The bits a binary64 value has to drop from [n], which counts units of
    [2^(-1074-J)]: all but 53, and at least [J]. *)
Definition cexp (J n : Z) : Z := Z.max (Z.log2 n + 1 - 53) J.

(** [n] units of [2^(-1074-J)] rounded to binary64, in units of [2^-1074]. *)
Definition RN (J n : Z) : Z :=
  rne_shift n (cexp J n) * 2 ^ (cexp J n - J).

Definition mag (x : spec_float) : Z :=
  match x with
  | S754_finite _ m e => Zpos m * 2 ^ (e + 1074)
  | _ => 0
  end.

Definition sign_of (x : spec_float) : bool :=
  match x with
  | S754_zero s | S754_infinity s | S754_finite s _ _ => s
  | S754_nan => false
  end.

Definition finite_SF (x : spec_float) : bool :=
  match x with
  | S754_zero _ | S754_finite _ _ _ => true
  | _ => false
  end.

(** The number 1 in units of [2^-1074]. *)
Definition unit_scale : Z := 2 ^ 1074.

(** The first magnitude, in units of [2^-1074], that is no binary64 value. *)
Definition overflow : Z := 2 ^ 2098.

(** [x] is the binary64 value of sign [s] and magnitude [r], or the infinity
    of that sign when [r] is out of range. *)
Definition rounded (s : bool) (r : Z) (x : spec_float) : Prop :=
  if overflow <=? r then x = S754_infinity s
  else finite_SF x = true /\ valid_binary x = true /\
       sign_of x = s /\ mag x = r.

(** The value of a finite binary64 number, in units of [2^-1074]. *)
Definition sval (x : spec_float) : Z := cond_Zopp (sign_of x) (mag x).

(** The value of a finite number in units of [2^-1074]; [None] for NaN and
    the infinities. *)
Definition scaled (x : number) : option Z :=
  if finite_SF (Prim2SF x) then Some (sval (Prim2SF x)) else None.

(** Rounding of a signed value. *)
Definition SRN (J z : Z) : Z := Z.sgn z * RN J (Z.abs z).

(** [x] is a finite number whose scaled value lies in [[lo, hi]]. *)
Definition within (x : number) (lo hi : Z) : Prop :=
  exists X, scaled x = Some X /\ lo <= X <= hi.

(** The largest scaled value below 1: [1 - 2^-53]. *)
Definition below_one : Z := 2 ^ 1074 - 2 ^ 1021.

End Scaled.

(* ================================================================= *)
(** ** An exponentiation

    One admissible [**] for exponents that are natural numbers: the product
    of the factors, rounded after each multiplication. *)

Fixpoint repeated_product (x : number) (n : nat) : number :=
  match n with
  | O => 1%float
  | Datatypes.S k => (repeated_product x k * x)%float
  end.

Definition power_by_products (x y : number) : number :=
  match integer_value y with
  | Some n => if (0 <=? n)%Z then repeated_product x (Z.to_nat n) else nan
  | None => nan
  end.

(* ================================================================= *)
(** ** Sample worlds *)

(** The raw source returns 0.125, 0.5, 0.75, 0.25 and starts again. *)
Definition quarters : world unit :=
  mkWorld (cycle [0.125; 0.5; 0.75; 0.25]%float) tt.

(** The raw source returns 0.03125, 0.5, 0.75, 0.25 and starts again. *)
Definition thirds : world unit :=
  mkWorld (cycle [0.03125; 0.5; 0.75; 0.25]%float) tt.

(** The raw source returns the largest sample, [1 - 2^-53], for ever. *)
Definition brink : world unit :=
  mkWorld (cycle [0x1.fffffffffffffp-1]%float) tt.

(** The raw source returns 0.5, 0.125, 0.125, 0.5 and starts again. *)
Definition stutter : world unit :=
  mkWorld (cycle [0.5; 0.125; 0.125; 0.5]%float) tt.

(** [Fuzzer.intRange(0, 9).map(n => ...)] with a function that throws on 5
    and returns ["one"] otherwise. *)
Definition unless_five : Fuzzer unit js_string :=
  map (intRange 0 9)
      (fun n => if (n =? 5)%float then throw (Raised 1) else ret (js "one")).

(* ================================================================= *)
(** * Binary64 arithmetic: the theory *)

Unset Implicit Arguments.

Section Binary64.

Local Open Scope Z_scope.

Lemma digits2_log2 (m : positive) :
  Zpos (digits2_pos m) = Z.log2 (Zpos m) + 1.
Proof.
  induction m as [m IH|m IH|]; simpl; try reflexivity.
  - destruct m; simpl in *; lia.
  - destruct m; simpl in *; lia.
Qed.

Lemma pow2_pos k : 0 < 2 ^ k \/ (k < 0 /\ 2 ^ k = 0).
Proof.
  destruct (Z.lt_ge_cases k 0) as [H|H].
  - right. split; [assumption | apply Z.pow_neg_r; assumption].
  - left. apply Z.pow_pos_nonneg; lia.
Qed.

Lemma pow2_gt0 k : 0 <= k -> 0 < 2 ^ k.
Proof. intros; apply Z.pow_pos_nonneg; lia. Qed.

Lemma pow2_split a b : 0 <= a -> 0 <= b -> 2 ^ (a + b) = 2 ^ a * 2 ^ b.
Proof. intros; apply Z.pow_add_r; assumption. Qed.

Lemma pow2_succ k : 0 <= k -> 2 ^ (k + 1) = 2 * 2 ^ k.
Proof. intros. rewrite Z.pow_add_r by lia. lia. Qed.

Lemma pow2_le a b : 0 <= a <= b -> 2 ^ a <= 2 ^ b.
Proof. intros; apply Z.pow_le_mono_r; lia. Qed.

(** *** [rne_shift] *)

Lemma rne_shift_bounds n k :
  0 <= n -> 0 < k -> n / 2 ^ k <= rne_shift n k <= n / 2 ^ k + 1.
Proof.
  intros Hn Hk. unfold rne_shift.
  destruct (k <=? 0) eqn:E; [lia|].
  destruct (_ <? _); [lia|]. destruct (_ <? _); [lia|].
  destruct (Z.even _); lia.
Qed.

Lemma rne_shift_mono n n' k :
  0 <= n <= n' -> rne_shift n k <= rne_shift n' k.
Proof.
  intros Hn. unfold rne_shift.
  destruct (k <=? 0) eqn:E; [lia|].
  apply Z.leb_gt in E.
  assert (Hp : 0 < 2 ^ k) by (apply pow2_gt0; lia).
  assert (Hq : n / 2 ^ k <= n' / 2 ^ k) by (apply Z.div_le_mono; lia).
  pose proof (Z.div_mod n (2 ^ k)) as D. pose proof (Z.div_mod n' (2 ^ k)) as D'.
  pose proof (Z.mod_pos_bound n (2 ^ k) Hp) as B.
  pose proof (Z.mod_pos_bound n' (2 ^ k) Hp) as B'.
  assert (Hh : 2 ^ k = 2 * 2 ^ (k - 1)).
  { replace k with ((k - 1) + 1) at 1 by lia. apply pow2_succ. lia. }
  destruct (Z.eq_dec (n / 2 ^ k) (n' / 2 ^ k)) as [Q|Q].
  - rewrite <- Q in *.
    assert (n mod 2 ^ k <= n' mod 2 ^ k) by nia.
    repeat match goal with
           | |- context [?a <? ?b] => destruct (Z.ltb_spec a b)
           | |- context [Z.even ?a] => destruct (Z.even a)
           end; lia.
  - assert (n / 2 ^ k + 1 <= n' / 2 ^ k) by lia.
    repeat match goal with
           | |- context [?a <? ?b] => destruct (Z.ltb_spec a b)
           | |- context [Z.even ?a] => destruct (Z.even a)
           end; lia.
Qed.

Lemma rne_shift_exact a k : 0 <= k -> rne_shift (a * 2 ^ k) k = a.
Proof.
  intros Hk. unfold rne_shift.
  destruct (k <=? 0) eqn:E.
  - apply Z.leb_le in E. replace k with 0 by lia. simpl. lia.
  - apply Z.leb_gt in E.
    assert (Hp : 0 < 2 ^ k) by (apply pow2_gt0; lia).
    rewrite Z.div_mul by lia. rewrite Z.mod_mul by lia.
    assert (0 < 2 ^ (k - 1)) by (apply pow2_gt0; lia).
    destruct (Z.ltb_spec 0 (2 ^ (k - 1))); lia.
Qed.

(** Dropping [j] zero bits first changes nothing. *)
Lemma rne_shift_scale n j k :
  0 <= n -> 0 <= j -> 0 < k -> rne_shift (n * 2 ^ j) (k + j) = rne_shift n k.
Proof.
  intros Hn Hj Hk. unfold rne_shift.
  destruct (k + j <=? 0) eqn:E1; [apply Z.leb_le in E1; lia|].
  destruct (k <=? 0) eqn:E2; [apply Z.leb_le in E2; lia|].
  assert (Hpj : 0 < 2 ^ j) by (apply pow2_gt0; lia).
  assert (Hpk : 0 < 2 ^ k) by (apply pow2_gt0; lia).
  assert (Hph : 0 < 2 ^ (k - 1)) by (apply pow2_gt0; lia).
  rewrite (Z.pow_add_r 2 k j) by lia.
  replace (k + j - 1) with ((k - 1) + j) by lia.
  rewrite (Z.pow_add_r 2 (k - 1) j) by lia.
  rewrite Z.div_mul_cancel_r by lia.
  rewrite Z.mul_mod_distr_r by lia.
  set (q := n / 2 ^ k). set (r := n mod 2 ^ k). set (h := 2 ^ (k - 1)).
  destruct (Z.ltb_spec (r * 2 ^ j) (h * 2 ^ j)); destruct (Z.ltb_spec r h);
    try nia; try reflexivity.
  destruct (Z.ltb_spec (h * 2 ^ j) (r * 2 ^ j)); destruct (Z.ltb_spec h r);
    try nia; reflexivity.
Qed.

(** *** [RN] *)

Lemma log2_upper n : 0 <= n -> n < 2 ^ (Z.log2 n + 1).
Proof.
  intros Hn. destruct (Z.eq_dec n 0) as [->|N]; [reflexivity|].
  apply Z.log2_spec. lia.
Qed.

Lemma log2_lower n : 0 < n -> 2 ^ Z.log2 n <= n.
Proof. intros Hn. apply Z.log2_spec. assumption. Qed.

Lemma cexp_ge J n : J <= cexp J n.
Proof. unfold cexp; lia. Qed.

Lemma cexp_mono J n n' : 0 <= n <= n' -> cexp J n <= cexp J n'.
Proof.
  intros H. unfold cexp.
  assert (Z.log2 n <= Z.log2 n') by (apply Z.log2_le_mono; lia). lia.
Qed.

Lemma rne_shift_nonneg n k : 0 <= n -> 0 <= rne_shift n k.
Proof.
  intros Hn. destruct (Z.leb_spec k 0) as [K|K].
  - unfold rne_shift. destruct (Z.leb_spec k 0); lia.
  - pose proof (rne_shift_bounds n k Hn K).
    assert (0 <= n / 2 ^ k) by (apply Z.div_pos; [lia | apply pow2_gt0; lia]).
    lia.
Qed.

(** A value with [d] bits keeps at most 53 of them, possibly carrying into
    [2^53]. *)
Lemma rne_shift_upper J n :
  0 <= J -> 0 <= n -> rne_shift n (cexp J n) <= 2 ^ 53.
Proof.
  intros HJ Hn. set (c := cexp J n).
  assert (Hc : Z.log2 n + 1 - 53 <= c) by (unfold c, cexp; lia).
  assert (Hu : n < 2 ^ (c + 53)).
  { eapply Z.lt_le_trans; [apply log2_upper; assumption|].
    apply pow2_le. pose proof (Z.log2_nonneg n). lia. }
  assert (0 <= c) by (pose proof (cexp_ge J n); lia).
  destruct (Z.leb_spec c 0) as [K|K].
  - unfold rne_shift. destruct (Z.leb_spec c 0); [|lia].
    replace c with 0 in Hu by lia. simpl in Hu. lia.
  - pose proof (rne_shift_bounds n c Hn K).
    assert (n / 2 ^ c < 2 ^ 53).
    { apply Z.div_lt_upper_bound; [apply pow2_gt0; lia|].
      rewrite <- Z.pow_add_r by lia. assumption. }
    lia.
Qed.

(** A value that had to drop more than [J] bits keeps exactly 53. *)
Lemma rne_shift_lower J n :
  0 <= J -> 0 < n -> J < cexp J n -> 2 ^ 52 <= rne_shift n (cexp J n).
Proof.
  intros HJ Hn. set (c := cexp J n). intros Hc.
  assert (Ec : c = Z.log2 n + 1 - 53) by (unfold c, cexp in *; lia).
  pose proof (log2_lower n Hn) as Hl.
  replace (Z.log2 n) with (52 + c) in Hl by lia.
  rewrite Z.pow_add_r in Hl by lia.
  assert (K : 0 < c) by lia.
  pose proof (rne_shift_bounds n c (Z.lt_le_incl _ _ Hn) K).
  assert (2 ^ 52 <= n / 2 ^ c).
  { apply Z.div_le_lower_bound; [apply pow2_gt0; lia | lia]. }
  lia.
Qed.

Theorem RN_mono J n n' : 0 <= J -> 0 <= n <= n' -> RN J n <= RN J n'.
Proof.
  intros HJ H. unfold RN.
  pose proof (cexp_mono J n n' H) as Hc.
  pose proof (cexp_ge J n) as Hg.
  destruct (Z.eq_dec (cexp J n) (cexp J n')) as [E|E].
  - rewrite <- E. apply Z.mul_le_mono_nonneg_r.
    + apply Z.pow_nonneg; lia.
    + apply rne_shift_mono; assumption.
  - assert (Hlt : cexp J n < cexp J n') by lia.
    assert (Hn' : 0 < n').
    { destruct (Z.eq_dec n' 0) as [Z0|]; [|lia].
      assert (n = 0) by lia. subst. lia. }
    pose proof (rne_shift_upper J n HJ (proj1 H)) as Hu.
    pose proof (rne_shift_lower J n' HJ Hn' ltac:(lia)) as Hl.
    set (c := cexp J n) in *. set (c' := cexp J n') in *.
    assert (P : 2 ^ (c' - J) = 2 ^ (c' - c) * 2 ^ (c - J)).
    { rewrite <- Z.pow_add_r by lia. f_equal. lia. }
    assert (Q : 2 <= 2 ^ (c' - c)).
    { change 2 with (2 ^ 1) at 1. apply pow2_le. lia. }
    assert (0 < 2 ^ (c - J)) by (apply pow2_gt0; lia).
    rewrite P.
    transitivity (2 ^ 53 * 2 ^ (c - J)); [nia|].
    transitivity (2 ^ 52 * (2 ^ (c' - c) * 2 ^ (c - J))); [|nia].
    change (2 ^ 53) with (2 * 2 ^ 52). nia.
Qed.

Lemma RN_nonneg J n : 0 <= J -> 0 <= n -> 0 <= RN J n.
Proof.
  intros HJ Hn. unfold RN. apply Z.mul_nonneg_nonneg.
  - apply rne_shift_nonneg; assumption.
  - apply Z.pow_nonneg; lia.
Qed.

Lemma RN_zero J : 0 <= J -> RN J 0 = 0.
Proof.
  intros HJ. unfold RN, cexp. simpl Z.log2.
  replace (Z.max (0 + 1 - 53) J) with J by lia.
  unfold rne_shift. destruct (Z.leb_spec J 0); [reflexivity|].
  rewrite Z.div_0_l, Z.mod_0_l by (apply Z.pow_nonzero; lia).
  assert (0 < 2 ^ (J - 1)) by (apply pow2_gt0; lia).
  destruct (Z.ltb_spec 0 (2 ^ (J - 1))); lia.
Qed.

(** ** The shifts of [SpecFloat] *)

Lemma shr_1_nonneg m r s :
  0 <= m ->
  shr_1 (Build_shr_record m r s) = Build_shr_record (m / 2) (Z.odd m) (r || s).
Proof.
  intros Hm. rewrite <- Z.div2_div.
  destruct m as [|p|p]; [reflexivity| |lia].
  destruct p; reflexivity.
Qed.

Lemma iter_pos_nat {A : Type} (f : A -> A) (p : positive) :
  forall x, SpecFloat.iter_pos f p x = Nat.iter (Pos.to_nat p) f x.
Proof.
  induction p as [p IH|p IH|]; intros x; simpl SpecFloat.iter_pos.
  - rewrite !IH, Pos2Nat.inj_xI.
    replace (S (2 * Pos.to_nat p))%nat with (Pos.to_nat p + (Pos.to_nat p + 1))%nat by lia.
    rewrite !Nat.iter_add. reflexivity.
  - rewrite !IH, Pos2Nat.inj_xO.
    replace (2 * Pos.to_nat p)%nat with (Pos.to_nat p + Pos.to_nat p)%nat by lia.
    rewrite Nat.iter_add. reflexivity.
  - reflexivity.
Qed.

(** [k + 1] shifts of [n]: the quotient, the last bit shifted out and whether
    a lower bit was set. *)
Lemma shr_iter n (k : nat) :
  0 <= n ->
  Nat.iter (S k) shr_1 (Build_shr_record n false false)
  = Build_shr_record (n / 2 ^ (Z.of_nat k + 1))
                     (Z.odd (n / 2 ^ Z.of_nat k))
                     (negb (n mod 2 ^ Z.of_nat k =? 0)).
Proof.
  intros Hn. induction k as [|k IH].
  - cbv [Nat.iter nat_rect]. rewrite shr_1_nonneg by assumption.
    simpl Z.of_nat. simpl Z.pow. rewrite Z.div_1_r, Z.mod_1_r. reflexivity.
  - change (Nat.iter (S (S k)) shr_1 ?x) with (shr_1 (Nat.iter (S k) shr_1 x)).
    rewrite IH.
    assert (Hp : 0 < 2 ^ Z.of_nat k) by (apply pow2_gt0; lia).
    rewrite shr_1_nonneg by (apply Z.div_pos; [lia | apply pow2_gt0; lia]).
    replace (Z.of_nat (S k)) with (Z.of_nat k + 1) by lia.
    f_equal.
    + rewrite Z.div_div by (try apply pow2_gt0; lia).
      f_equal. rewrite (pow2_succ (Z.of_nat k + 1)) by lia. lia.
    + rewrite (pow2_succ (Z.of_nat k)) by lia.
      rewrite (Z.mul_comm 2), Z.rem_mul_r by lia.
      rewrite Zmod_odd.
      pose proof (Z.mod_pos_bound n (2 ^ Z.of_nat k) Hp).
      destruct (Z.odd (n / 2 ^ Z.of_nat k)); simpl.
      * symmetry. apply negb_true_iff, Z.eqb_neq. lia.
      * f_equal. f_equal. lia.
Qed.

(** Shifting [n] by [k] bits and rounding with the location the shifts
    recorded is [rne_shift]. *)
Lemma round_shr n (p : positive) :
  0 <= n ->
  let mrs := SpecFloat.iter_pos shr_1 p (Build_shr_record n false false) in
  round_nearest_even (shr_m mrs) (loc_of_shr_record mrs) = rne_shift n (Zpos p).
Proof.
  intros Hn. cbv zeta. rewrite iter_pos_nat.
  destruct (Pos2Nat.is_succ p) as [k Ek]. rewrite Ek.
  rewrite shr_iter by assumption.
  assert (Ep : Zpos p = Z.of_nat k + 1) by lia.
  rewrite Ep. unfold rne_shift.
  destruct (Z.leb_spec (Z.of_nat k + 1) 0); [lia|].
  replace (Z.of_nat k + 1 - 1) with (Z.of_nat k) by lia.
  set (K := Z.of_nat k).
  assert (Hp : 0 < 2 ^ K) by (apply pow2_gt0; lia).
  assert (R : n mod 2 ^ (K + 1)
              = n mod 2 ^ K + 2 ^ K * (if Z.odd (n / 2 ^ K) then 1 else 0)).
  { rewrite (pow2_succ K), (Z.mul_comm 2), Z.rem_mul_r by lia.
    rewrite Zmod_odd. reflexivity. }
  assert (Q : n / 2 ^ (K + 1) = n / 2 ^ K / 2).
  { rewrite Z.div_div by lia. f_equal. rewrite pow2_succ by lia. lia. }
  rewrite R, Q.
  pose proof (Z.mod_pos_bound n (2 ^ K) Hp).
  unfold loc_of_shr_record, round_nearest_even, shr_m.
  destruct (Z.odd (n / 2 ^ K)); destruct (Z.eqb_spec (n mod 2 ^ K) 0);
    simpl negb; cbv iota;
    repeat match goal with
           | |- context [?a <? ?b] => destruct (Z.ltb_spec a b); try lia
           end; reflexivity.
Qed.

(** ** What [binary_round_aux] computes *)

Lemma fexp_eq e : fexp prec emax e = Z.max (e - 53) (-1074).
Proof. reflexivity. Qed.

Lemma Zdigits2_log2 m : 0 < m -> Zdigits2 m = Z.log2 m + 1.
Proof.
  intros Hm. destruct m as [|p|p]; try lia. simpl Zdigits2. apply digits2_log2.
Qed.

Lemma shr_fexp_exact m e :
  0 <= m ->
  let k := fexp prec emax (Zdigits2 m + e) - e in
  let '(mrs, e') := shr_fexp prec emax m e loc_Exact in
  e' = e + Z.max k 0 /\
  round_nearest_even (shr_m mrs) (loc_of_shr_record mrs) = rne_shift m k /\
  shr_m mrs = m / 2 ^ Z.max k 0.
Proof.
  intros Hm k. unfold shr_fexp. fold k. unfold shr, shr_record_of_loc.
  destruct k as [|p|p] eqn:Ek.
  - split; [|split]; [lia | reflexivity |].
    change (2 ^ Z.max 0 0) with 1. rewrite Z.div_1_r. reflexivity.
  - split; [|split].
    + lia.
    + apply round_shr. assumption.
    + rewrite iter_pos_nat.
      destruct (Pos2Nat.is_succ p) as [j Ej]. rewrite Ej.
      rewrite shr_iter by assumption. simpl shr_m. do 2 f_equal. lia.
  - split; [|split]; [lia | reflexivity |].
    change (2 ^ Z.max (Zneg p) 0) with 1. rewrite Z.div_1_r. reflexivity.
Qed.

Lemma log2_mul_pow2 m t : 0 < m -> 0 <= t -> Z.log2 (m * 2 ^ t) = Z.log2 m + t.
Proof. intros. rewrite Z.log2_mul_pow2 by assumption. lia. Qed.

(** [RN] in terms of the mantissa and the exponent of the argument. *)
Lemma RN_scaled J mx ex :
  0 <= J -> 0 <= ex + 1074 + J -> 0 < mx ->
  let e1 := fexp prec emax (Z.log2 mx + 1 + ex) in
  ex <= e1 ->
  cexp J (mx * 2 ^ (ex + 1074 + J)) = e1 + 1074 + J /\
  rne_shift (mx * 2 ^ (ex + 1074 + J)) (e1 + 1074 + J) = rne_shift mx (e1 - ex) /\
  RN J (mx * 2 ^ (ex + 1074 + J)) = rne_shift mx (e1 - ex) * 2 ^ (e1 + 1074).
Proof.
  intros HJ Ht Hm e1 He.
  assert (Ec : cexp J (mx * 2 ^ (ex + 1074 + J)) = e1 + 1074 + J).
  { unfold cexp. rewrite log2_mul_pow2 by lia. unfold e1. rewrite fexp_eq. lia. }
  assert (Er : rne_shift (mx * 2 ^ (ex + 1074 + J)) (e1 + 1074 + J)
               = rne_shift mx (e1 - ex)).
  { destruct (Z.eq_dec e1 ex) as [E|E].
    - rewrite E. rewrite rne_shift_exact by lia.
      replace (ex - ex) with 0 by lia. reflexivity.
    - replace (e1 + 1074 + J) with ((e1 - ex) + (ex + 1074 + J)) by lia.
      apply rne_shift_scale; lia. }
  repeat split; try assumption.
  unfold RN. rewrite Ec, Er. do 2 f_equal. lia.
Qed.

Lemma below_overflow m e :
  0 <= m < 2 ^ 53 -> -1074 <= e <= 971 -> m * 2 ^ (e + 1074) < overflow.
Proof.
  intros Hm He.
  assert (E : overflow = 2 ^ 53 * 2 ^ 2045) by reflexivity.
  assert (P : 2 ^ (e + 1074) <= 2 ^ 2045) by (apply pow2_le; lia).
  assert (Q : 0 < 2 ^ (e + 1074)) by (apply pow2_gt0; lia).
  rewrite E. revert P Q.
  generalize (2 ^ (e + 1074)) (2 ^ 2045). intros a b P Q. nia.
Qed.

Lemma above_overflow m e :
  2 ^ 52 <= m -> 972 <= e -> overflow <= m * 2 ^ (e + 1074).
Proof.
  intros Hm He.
  assert (E : overflow = 2 ^ 52 * 2 ^ 2046) by reflexivity.
  assert (P : 2 ^ 2046 <= 2 ^ (e + 1074)) by (apply pow2_le; lia).
  assert (Q : 0 < 2 ^ 2046) by (apply pow2_gt0; lia).
  rewrite E. revert P Q.
  generalize (2 ^ (e + 1074)) (2 ^ 2046). intros a b P Q. nia.
Qed.

Lemma log2_53 m : 2 ^ 52 <= m < 2 ^ 53 -> Z.log2 m = 52.
Proof. intros H. apply Z.log2_unique; [lia | exact H]. Qed.

Lemma log2_below_53 m : 0 < m < 2 ^ 53 -> Z.log2 m <= 52.
Proof.
  intros H. assert (Z.log2 m < 53) by (apply Z.log2_lt_pow2; lia). lia.
Qed.

Theorem binary_round_aux_spec s mx ex J :
  0 <= J -> 0 <= ex + 1074 + J ->
  ex <= fexp prec emax (Zpos (digits2_pos mx) + ex) ->
  rounded s (RN J (Zpos mx * 2 ^ (ex + 1074 + J)))
          (binary_round_aux prec emax s (Zpos mx) ex loc_Exact).
Proof.
  intros HJ Ht He. rewrite digits2_log2 in He.
  destruct (RN_scaled J (Zpos mx) ex HJ Ht ltac:(lia) He) as (Ec & Er & ERN).
  set (e1 := fexp prec emax (Z.log2 (Zpos mx) + 1 + ex)) in *.
  set (n := Zpos mx * 2 ^ (ex + 1074 + J)) in *.
  assert (Hn : 0 < n) by (apply Z.mul_pos_pos; [lia | apply pow2_gt0; lia]).
  set (mr := rne_shift (Zpos mx) (e1 - ex)) in *.
  assert (Hu : mr <= 2 ^ 53).
  { pose proof (rne_shift_upper J n HJ ltac:(lia)) as U.
    rewrite Ec, Er in U. exact U. }
  assert (Hl : -1074 < e1 -> 2 ^ 52 <= mr).
  { intros L. pose proof (rne_shift_lower J n HJ Hn ltac:(lia)) as U.
    rewrite Ec, Er in U. exact U. }
  assert (H0 : 0 <= mr) by (apply rne_shift_nonneg; lia).
  assert (Hemin : -1074 <= e1) by (unfold e1; rewrite fexp_eq; lia).
  rewrite ERN. clear Ec Er ERN.
  unfold binary_round_aux.
  pose proof (shr_fexp_exact (Zpos mx) ex ltac:(lia)) as S1. cbv zeta in S1.
  simpl Zdigits2 in S1. rewrite digits2_log2 in S1. fold e1 in S1.
  destruct (shr_fexp prec emax (Zpos mx) ex loc_Exact) as [mrs' e'].
  destruct S1 as (Ee' & Eround & _).
  rewrite Eround. fold mr. replace e' with e1 by lia. clear Ee' Eround.
  pose proof (shr_fexp_exact mr e1 H0) as S2. cbv zeta in S2.
  destruct (shr_fexp prec emax mr e1 loc_Exact) as [mrs'' e''].
  destruct S2 as (Ee'' & _ & Em2).
  rewrite Em2, Ee''. clear Em2 Ee''.
  set (k2 := fexp prec emax (Zdigits2 mr + e1) - e1).
  change (Z.sub emax prec) with 971.
  destruct (Z.eq_dec mr 0) as [Z0|NZ].
  - (* the value rounds to zero *)
    rewrite Z0. rewrite Z.div_0_l by (apply Z.pow_nonzero; lia).
    unfold rounded. rewrite Z.mul_0_l.
    change (overflow <=? 0) with false. cbv iota. repeat split.
  - destruct (Z.eq_dec mr (2 ^ 53)) as [C|NC].
    + (* the rounding carried into a 54th bit *)
      assert (K2 : k2 = 1).
      { unfold k2. rewrite C. rewrite fexp_eq.
        change (Zdigits2 (2 ^ 53)) with 54. lia. }
      rewrite K2, C. change (2 ^ 53 / 2 ^ Z.max 1 0) with (Zpos 4503599627370496).
      cbv iota. unfold rounded.
      replace (2 ^ 53 * 2 ^ (e1 + 1074)) with (2 ^ 52 * 2 ^ (e1 + 1 + 1074)).
      2:{ replace (e1 + 1 + 1074) with ((e1 + 1074) + 1) by lia.
          rewrite pow2_succ by lia. change (2 ^ 53) with (2 * 2 ^ 52). ring. }
      destruct (Z.leb_spec (e1 + Z.max 1 0) 971) as [L|L].
      * pose proof (below_overflow (2 ^ 52) (e1 + 1) ltac:(split; [| reflexivity]; discriminate || (apply Z.pow_nonneg; lia)) ltac:(lia)) as B.
        destruct (Z.leb_spec overflow (2 ^ 52 * 2 ^ (e1 + 1 + 1074))); [lia|].
        repeat split.
        unfold SpecFloat.valid_binary, bounded, canonical_mantissa.
        rewrite fexp_eq. change (Zpos (digits2_pos 4503599627370496)) with 53.
        change (Z.sub emax prec) with 971.
        apply andb_true_iff; split; [apply Z.eqb_eq | apply Z.leb_le]; lia.
      * pose proof (above_overflow (2 ^ 52) (e1 + 1) ltac:(lia) ltac:(lia)) as B.
        destruct (Z.leb_spec overflow (2 ^ 52 * 2 ^ (e1 + 1 + 1074))); [reflexivity|lia].
    + (* the mantissa has at most 53 bits *)
      assert (Hr : 0 < mr < 2 ^ 53) by lia.
      assert (K2 : k2 = 0).
      { unfold k2. rewrite fexp_eq, Zdigits2_log2 by lia.
        pose proof (log2_below_53 mr Hr).
        destruct (Z.eq_dec e1 (-1074)) as [E|E]; [lia|].
        rewrite (log2_53 mr) by (split; [apply Hl|]; lia). lia. }
      assert (C2 : fexp prec emax (Zdigits2 mr + e1) = e1) by (unfold k2 in K2; lia).
      rewrite K2. change (2 ^ Z.max 0 0) with 1. rewrite Z.div_1_r.
      destruct mr as [|m|m]; try lia. unfold rounded.
      replace (e1 + Z.max 0 0) with e1 by lia.
      destruct (Z.leb_spec e1 971) as [L|L].
      * pose proof (below_overflow (Zpos m) e1 ltac:(lia) ltac:(lia)) as B.
        destruct (Z.leb_spec overflow (Zpos m * 2 ^ (e1 + 1074))); [lia|].
        repeat split.
        unfold SpecFloat.valid_binary, bounded, canonical_mantissa.
        simpl Zdigits2 in C2. rewrite C2.
        change (Z.sub emax prec) with 971.
        apply andb_true_iff; split; [apply Z.eqb_eq | apply Z.leb_le]; lia.
      * pose proof (above_overflow (Zpos m) e1 ltac:(apply Hl; lia) ltac:(lia)) as B.
        destruct (Z.leb_spec overflow (Zpos m * 2 ^ (e1 + 1074))); [reflexivity|lia].
Qed.

(** ** [binary_round] and [binary_normalize] *)

Lemma shift_left_value mx (d : positive) :
  Zpos (Pos.iter xO mx d) = Zpos mx * 2 ^ Zpos d.
Proof.
  change (Pos.iter xO mx d) with (shift_pos d mx).
  rewrite shift_pos_correct, Zpower_pos_nat, Zpower_nat_Z.
  rewrite positive_nat_Z. lia.
Qed.

Theorem binary_round_spec s mx ex J :
  0 <= J -> 0 <= ex + 1074 + J ->
  rounded s (RN J (Zpos mx * 2 ^ (ex + 1074 + J)))
          (binary_round prec emax s mx ex).
Proof.
  intros HJ Ht. unfold binary_round, shl_align.
  set (e1 := fexp prec emax (Zpos (digits2_pos mx) + ex)).
  destruct (e1 - ex) as [|d|d] eqn:Ed.
  - apply binary_round_aux_spec; try assumption. fold e1. lia.
  - apply binary_round_aux_spec; try assumption. fold e1. lia.
  - assert (Hd : ex = e1 + Zpos d) by lia.
    assert (He1 : -1074 <= e1) by (unfold e1; rewrite fexp_eq; lia).
    replace (Zpos mx * 2 ^ (ex + 1074 + J))
      with (Zpos (Pos.iter xO mx d) * 2 ^ (e1 + 1074 + J)).
    + apply binary_round_aux_spec; try lia.
      rewrite digits2_log2, shift_left_value.
      rewrite log2_mul_pow2 by lia.
      replace (Z.log2 (Zpos mx) + Zpos d + 1 + e1)
        with (Zpos (digits2_pos mx) + ex) by (rewrite digits2_log2; lia).
      fold e1. lia.
    + rewrite shift_left_value, Hd.
      replace (e1 + Zpos d + 1074 + J) with (Zpos d + (e1 + 1074 + J)) by lia.
      rewrite (Z.pow_add_r 2 (Zpos d)) by lia. ring.
Qed.

Theorem binary_normalize_spec z e szero J :
  0 <= J -> 0 <= e + 1074 + J -> z <> 0 ->
  rounded (z <? 0) (RN J (Z.abs z * 2 ^ (e + 1074 + J)))
          (binary_normalize prec emax z e szero).
Proof.
  intros HJ Ht Hz. destruct z as [|m|m]; [contradiction| |];
    apply binary_round_spec; assumption.
Qed.

(** ** Valid binary64 values *)

Lemma valid_finite_bounds s m e :
  valid_binary (S754_finite s m e) = true ->
  -1074 <= e <= 971 /\ Zpos m < 2 ^ 53 /\ (-1074 < e -> 2 ^ 52 <= Zpos m).
Proof.
  unfold SpecFloat.valid_binary, bounded, canonical_mantissa.
  rewrite fexp_eq, digits2_log2. change (Z.sub emax prec) with 971.
  intros H. apply andb_true_iff in H. destruct H as [C B].
  apply Z.eqb_eq in C. apply Z.leb_le in B.
  pose proof (log2_upper (Zpos m) ltac:(lia)) as U.
  pose proof (log2_lower (Zpos m) ltac:(lia)) as L.
  split; [lia|]. split.
  - eapply Z.lt_le_trans; [exact U|]. apply pow2_le.
    pose proof (Z.log2_nonneg (Zpos m)). lia.
  - intros N. replace 52 with (Z.log2 (Zpos m)) by lia. exact L.
Qed.

Lemma mag_nonneg x : 0 <= mag x.
Proof.
  destruct x as [s|s| |s m e]; unfold mag; lia.
Qed.

Lemma mag_finite_pos s m e : -1074 <= e -> 0 < mag (S754_finite s m e).
Proof.
  intros He. unfold mag. apply Z.mul_pos_pos; [lia | apply pow2_gt0; lia].
Qed.

(** A valid value is its own rounding. *)
Lemma RN_valid x :
  valid_binary x = true -> RN 0 (mag x) = mag x.
Proof.
  destruct x as [s|s| |s m e]; intros V; try (apply RN_zero; lia).
  destruct (valid_finite_bounds s m e V) as (He & Hm & Hn).
  unfold SpecFloat.valid_binary, bounded, canonical_mantissa in V.
  apply andb_true_iff in V. destruct V as [C _]. apply Z.eqb_eq in C.
  rewrite fexp_eq, digits2_log2 in C.
  unfold RN, mag.
  assert (Ec : cexp 0 (Zpos m * 2 ^ (e + 1074)) = e + 1074).
  { unfold cexp. rewrite log2_mul_pow2 by lia. lia. }
  rewrite Ec, rne_shift_exact by lia. do 2 f_equal. lia.
Qed.

Lemma mag_below_overflow x :
  valid_binary x = true -> mag x < overflow.
Proof.
  destruct x as [s|s| |s m e]; intros V; try reflexivity.
  destruct (valid_finite_bounds s m e V) as (He & Hm & Hn).
  apply below_overflow; lia.
Qed.

(** ** Order *)

Lemma mag_compare s1 m1 e1 s2 m2 e2 :
  valid_binary (S754_finite s1 m1 e1) = true ->
  valid_binary (S754_finite s2 m2 e2) = true ->
  (mag (S754_finite s1 m1 e1) ?= mag (S754_finite s2 m2 e2))
  = match e1 ?= e2 with
    | Lt => Lt
    | Gt => Gt
    | Eq => Pos.compare_cont Eq m1 m2
    end.
Proof.
  intros V1 V2.
  destruct (valid_finite_bounds _ _ _ V1) as (He1 & Hm1 & Hn1).
  destruct (valid_finite_bounds _ _ _ V2) as (He2 & Hm2 & Hn2).
  unfold mag.
  assert (P1 : 0 < 2 ^ (e1 + 1074)) by (apply pow2_gt0; lia).
  assert (P2 : 0 < 2 ^ (e2 + 1074)) by (apply pow2_gt0; lia).
  change (2 ^ 53) with (2 * 2 ^ 52) in Hm1, Hm2.
  destruct (Z.compare_spec e1 e2) as [E|L|G].
  - subst e2. change (Pos.compare_cont Eq m1 m2) with (Zpos m1 ?= Zpos m2).
    symmetry. apply Zmult_compare_compat_r. lia.
  - apply Z.compare_lt_iff.
    assert (Q : 2 * 2 ^ (e1 + 1074) <= 2 ^ (e2 + 1074)).
    { rewrite <- pow2_succ by lia. apply pow2_le. lia. }
    specialize (Hn2 ltac:(lia)). revert P1 P2 Q Hm1 Hn2.
    generalize (2 ^ (e1 + 1074)) (2 ^ (e2 + 1074)) (2 ^ 52).
    intros a b c. nia.
  - apply Z.compare_gt_iff.
    assert (Q : 2 * 2 ^ (e2 + 1074) <= 2 ^ (e1 + 1074)).
    { rewrite <- pow2_succ by lia. apply pow2_le. lia. }
    specialize (Hn1 ltac:(lia)). revert P1 P2 Q Hm2 Hn1.
    generalize (2 ^ (e1 + 1074)) (2 ^ (e2 + 1074)) (2 ^ 52).
    intros a b c. nia.
Qed.

Theorem SFcompare_sval x y :
  finite_SF x = true -> finite_SF y = true ->
  valid_binary x = true -> valid_binary y = true ->
  SFcompare x y = Some (sval x ?= sval y).
Proof.
  destruct x as [s1|s1| |s1 m1 e1]; destruct y as [s2|s2| |s2 m2 e2];
    try discriminate; intros _ _ V1 V2.
  - destruct s1, s2; reflexivity.
  - destruct (valid_finite_bounds _ _ _ V2) as (He & _).
    pose proof (mag_finite_pos s2 m2 e2 ltac:(lia)) as P.
    unfold SFcompare, sval, sign_of. change (mag (S754_zero s1)) with 0.
    destruct s1, s2; unfold cond_Zopp; f_equal; symmetry;
      try (apply Z.compare_lt_iff; lia); apply Z.compare_gt_iff; lia.
  - destruct (valid_finite_bounds _ _ _ V1) as (He & _).
    pose proof (mag_finite_pos s1 m1 e1 ltac:(lia)) as P.
    unfold SFcompare, sval, sign_of. change (mag (S754_zero s2)) with 0.
    destruct s1, s2; unfold cond_Zopp; f_equal; symmetry;
      try (apply Z.compare_lt_iff; lia); apply Z.compare_gt_iff; lia.
  - pose proof (mag_compare s1 m1 e1 s2 m2 e2 V1 V2) as C.
    pose proof (mag_compare s2 m2 e2 s1 m1 e1 V2 V1) as C'.
    destruct (valid_finite_bounds _ _ _ V1) as (He1 & _).
    destruct (valid_finite_bounds _ _ _ V2) as (He2 & _).
    pose proof (mag_finite_pos s1 m1 e1 ltac:(lia)) as P1.
    pose proof (mag_finite_pos s2 m2 e2 ltac:(lia)) as P2.
    unfold SFcompare, sval, sign_of.
    destruct s1, s2; unfold cond_Zopp; f_equal.
    + rewrite Z.compare_opp, C'. rewrite (Z.compare_antisym e1 e2).
      destruct (e1 ?= e2); try reflexivity. simpl.
      change (Pos.compare_cont Eq m2 m1) with (Pos.compare m2 m1).
      change (Pos.compare_cont Eq m1 m2) with (Pos.compare m1 m2).
      rewrite (Pos.compare_antisym m1 m2). reflexivity.
    + symmetry. apply Z.compare_lt_iff. lia.
    + symmetry. apply Z.compare_gt_iff. lia.
    + symmetry. exact C.
Qed.

(** ** Primitive floats through their scaled values *)

Lemma scaled_inv x X :
  scaled x = Some X ->
  finite_SF (Prim2SF x) = true /\ valid_binary (Prim2SF x) = true /\
  sval (Prim2SF x) = X.
Proof.
  unfold scaled. destruct (finite_SF (Prim2SF x)) eqn:F; [|discriminate].
  intros H; inversion H. repeat split. apply Prim2SF_valid.
Qed.

Lemma compare_scaled a b A B :
  scaled a = Some A -> scaled b = Some B ->
  SFcompare (Prim2SF a) (Prim2SF b) = Some (A ?= B).
Proof.
  intros Ha Hb.
  destruct (scaled_inv a A Ha) as (Fa & Va & <-).
  destruct (scaled_inv b B Hb) as (Fb & Vb & <-).
  apply SFcompare_sval; assumption.
Qed.

Lemma ltb_scaled a b A B :
  scaled a = Some A -> scaled b = Some B -> (a <? b)%float = (A <? B).
Proof.
  intros Ha Hb. rewrite FloatAxioms.ltb_spec. unfold SFltb.
  rewrite (compare_scaled a b A B Ha Hb). unfold Z.ltb.
  destruct (A ?= B); reflexivity.
Qed.

Lemma leb_scaled a b A B :
  scaled a = Some A -> scaled b = Some B -> (a <=? b)%float = (A <=? B).
Proof.
  intros Ha Hb. rewrite FloatAxioms.leb_spec. unfold SFleb.
  rewrite (compare_scaled a b A B Ha Hb). unfold Z.leb.
  destruct (A ?= B); reflexivity.
Qed.

Lemma rounded_finite s r y :
  rounded s r y -> r < overflow ->
  finite_SF y = true /\ valid_binary y = true /\ sval y = cond_Zopp s r.
Proof.
  unfold rounded. intros R L.
  destruct (Z.leb_spec overflow r); [lia|].
  destruct R as (F & V & S & M). unfold sval. rewrite S, M. auto.
Qed.

Lemma sval_abs x : Z.abs (sval x) = mag x.
Proof.
  pose proof (mag_nonneg x). unfold sval.
  destruct (sign_of x); unfold cond_Zopp; lia.
Qed.

Lemma sgn_cond_Zopp s x : 0 < x -> Z.sgn (cond_Zopp s x) = if s then -1 else 1.
Proof.
  intros H. destruct s; unfold cond_Zopp.
  - apply Z.sgn_neg. lia.
  - apply Z.sgn_pos. lia.
Qed.

Lemma scaled_zero x s : Prim2SF x = S754_zero s -> scaled x = Some 0.
Proof. intros E. unfold scaled. rewrite E. destruct s; reflexivity. Qed.

(** The product of two finite numbers is the rounding of the exact product,
    as long as that is in range. *)
Theorem mul_scaled a b A B :
  scaled a = Some A -> scaled b = Some B ->
  RN 1074 (Z.abs (A * B)) < overflow ->
  scaled (a * b) = Some (Z.sgn (A * B) * RN 1074 (Z.abs (A * B))).
Proof.
  intros Ha Hb Hr.
  destruct (scaled_inv a A Ha) as (Fa & Va & Ea).
  destruct (scaled_inv b B Hb) as (Fb & Vb & Eb).
  unfold scaled. rewrite FloatAxioms.mul_spec. unfold SF64mul.
  destruct (Prim2SF a) as [sa|sa| |sa ma ea]; try discriminate;
    destruct (Prim2SF b) as [sb|sb| |sb mb eb]; try discriminate.
  - replace A with 0 by (rewrite <- Ea; destruct sa; reflexivity).
    rewrite Z.mul_0_l. simpl. destruct (xorb sa sb); reflexivity.
  - replace A with 0 by (rewrite <- Ea; destruct sa; reflexivity).
    rewrite Z.mul_0_l. simpl. destruct (xorb sa sb); reflexivity.
  - replace B with 0 by (rewrite <- Eb; destruct sb; reflexivity).
    rewrite Z.mul_0_r. simpl. destruct (xorb sa sb); reflexivity.
  - destruct (valid_finite_bounds _ _ _ Va) as (Hea & Hma & Hna).
    destruct (valid_finite_bounds _ _ _ Vb) as (Heb & Hmb & Hnb).
    pose proof (mag_finite_pos sa ma ea ltac:(lia)) as Pa.
    pose proof (mag_finite_pos sb mb eb ltac:(lia)) as Pb.
    assert (En : Zpos (ma * mb) * 2 ^ (ea + eb + 1074 + 1074) = Z.abs (A * B)).
    { rewrite Z.abs_mul, <- Ea, <- Eb, !sval_abs. unfold mag.
      replace (ea + eb + 1074 + 1074) with ((ea + 1074) + (eb + 1074)) by lia.
      rewrite Z.pow_add_r by lia. rewrite Pos2Z.inj_mul. ring. }
    assert (Es : Z.sgn (A * B) = if xorb sa sb then -1 else 1).
    { rewrite Z.sgn_mul, <- Ea, <- Eb. unfold sval, sign_of.
      rewrite !sgn_cond_Zopp by assumption. destruct sa, sb; reflexivity. }
    simpl SFmul.
    pose proof (binary_round_aux_spec (xorb sa sb) (ma * mb) (ea + eb) 1074
                  ltac:(lia) ltac:(lia)) as R.
    rewrite En in R.
    assert (Pre : ea + eb <= fexp prec emax (Zpos (digits2_pos (ma * mb)) + (ea + eb))).
    { rewrite fexp_eq, digits2_log2.
      destruct (Z.le_gt_cases (ea + eb) (-1074)) as [L|G]; [lia|].
      assert (2 ^ 52 <= Zpos (ma * mb)).
      { rewrite Pos2Z.inj_mul.
        destruct (Z.eq_dec ea (-1074)) as [E|E].
        - specialize (Hnb ltac:(lia)). nia.
        - specialize (Hna ltac:(lia)). nia. }
      assert (52 <= Z.log2 (Zpos (ma * mb))) by (apply Z.log2_le_pow2; lia).
      lia. }
    destruct (rounded_finite _ _ _ (R Pre) Hr) as (F & V & S).
    rewrite F, S, Es. f_equal.
    destruct (xorb sa sb); unfold cond_Zopp; lia.
Qed.

Lemma shl_align_value mx ex ez :
  ez <= ex -> Zpos (fst (shl_align mx ex ez)) = Zpos mx * 2 ^ (ex - ez).
Proof.
  intros H. unfold shl_align.
  destruct (ez - ex) as [|d|d] eqn:E.
  - replace (ex - ez) with 0 by lia. simpl fst. lia.
  - lia.
  - simpl fst. rewrite shift_left_value. do 2 f_equal. lia.
Qed.

(** The sum of two finite numbers is the rounding of the exact sum, as long
    as that is in range. *)
Theorem add_scaled a b A B :
  scaled a = Some A -> scaled b = Some B ->
  RN 0 (Z.abs (A + B)) < overflow ->
  scaled (a + b) = Some (Z.sgn (A + B) * RN 0 (Z.abs (A + B))).
Proof.
  intros Ha Hb Hr.
  destruct (scaled_inv a A Ha) as (Fa & Va & Ea).
  destruct (scaled_inv b B Hb) as (Fb & Vb & Eb).
  unfold scaled. rewrite FloatAxioms.add_spec. unfold SF64add.
  destruct (Prim2SF a) as [sa|sa| |sa ma ea] eqn:Pa; try discriminate;
    destruct (Prim2SF b) as [sb|sb| |sb mb eb] eqn:Pb; try discriminate.
  - replace A with 0 by (rewrite <- Ea; destruct sa; reflexivity).
    replace B with 0 by (rewrite <- Eb; destruct sb; reflexivity).
    simpl. destruct sa, sb; reflexivity.
  - replace A with 0 in * by (rewrite <- Ea; destruct sa; reflexivity).
    rewrite Z.add_0_l. simpl SFadd. rewrite Fb. f_equal.
    rewrite <- Eb. rewrite sval_abs, (RN_valid _ Vb), <- sval_abs.
    symmetry. rewrite Z.mul_comm. apply Z.abs_sgn.
  - replace B with 0 in * by (rewrite <- Eb; destruct sb; reflexivity).
    rewrite Z.add_0_r. simpl SFadd. rewrite Fa. f_equal.
    rewrite <- Ea. rewrite sval_abs, (RN_valid _ Va), <- sval_abs.
    symmetry. rewrite Z.mul_comm. apply Z.abs_sgn.
  - destruct (valid_finite_bounds _ _ _ Va) as (Hea & _).
    destruct (valid_finite_bounds _ _ _ Vb) as (Heb & _).
    unfold SFadd. change (IntDef.Z.min ea eb) with (Z.min ea eb).
    rewrite (shl_align_value ma ea (Z.min ea eb)) by lia.
    rewrite (shl_align_value mb eb (Z.min ea eb)) by lia.
    set (ez := Z.min ea eb).
    set (z := cond_Zopp sa (Zpos ma * 2 ^ (ea - ez))
              + cond_Zopp sb (Zpos mb * 2 ^ (eb - ez))).
    assert (Ez : z * 2 ^ (ez + 1074) = A + B).
    { rewrite <- Ea, <- Eb. unfold z, sval, sign_of, mag.
      replace (ea + 1074) with ((ea - ez) + (ez + 1074)) by lia.
      replace (eb + 1074) with ((eb - ez) + (ez + 1074)) by lia.
      rewrite (Z.pow_add_r 2 (ea - ez) (ez + 1074)) by (unfold ez; lia).
      rewrite (Z.pow_add_r 2 (eb - ez) (ez + 1074)) by (unfold ez; lia).
      destruct sa, sb; unfold cond_Zopp; ring. }
    assert (Pz : 0 < 2 ^ (ez + 1074)) by (apply pow2_gt0; unfold ez; lia).
    destruct (Z.eq_dec z 0) as [Z0|NZ].
    + rewrite Z0 in *. simpl binary_normalize.
      rewrite <- Ez, Z.mul_0_l. reflexivity.
    + pose proof (binary_normalize_spec z ez false 0 ltac:(lia) ltac:(lia) NZ) as R.
      replace (Z.abs z * 2 ^ (ez + 1074 + 0)) with (Z.abs (A + B)) in R.
      2:{ rewrite <- Ez, Z.abs_mul, Z.add_0_r. f_equal. lia. }
      destruct (rounded_finite _ _ _ R Hr) as (F & V & S).
      rewrite F, S. f_equal.
      assert (Z.sgn (A + B) = Z.sgn z).
      { rewrite <- Ez, Z.sgn_mul. lia. }
      destruct (Z.ltb_spec z 0); unfold cond_Zopp; lia.
Qed.

(** ** Finite numbers *)

Lemma is_finite_scaled x X : scaled x = Some X -> is_finite x = true.
Proof.
  intros H. destruct (scaled_inv x X H) as (F & V & _).
  unfold is_finite, is_nan, is_infinity.
  rewrite !FloatAxioms.eqb_spec, FloatAxioms.abs_spec. unfold SFeqb.
  rewrite (SFcompare_sval _ _ F F V V), Z.compare_refl.
  destruct (Prim2SF x) as [s|s| |s m e]; try discriminate; reflexivity.
Qed.

Lemma scaled_finite x : is_finite x = true -> exists X, scaled x = Some X.
Proof.
  unfold is_finite, scaled, Prim2SF. intros H.
  apply negb_true_iff, orb_false_iff in H. destruct H as [N I].
  rewrite N. destruct (is_zero x); [eexists; reflexivity|].
  rewrite I. destruct (Z.frexp x) as [r ex].
  destruct (shr_fexp prec emax _ _ _) as [mrs e'].
  destruct (shr_m mrs); eexists; reflexivity.
Qed.

(** ** [Math.floor], [Math.ceil] and the conversions to integers *)

Lemma unit_scale_pos : 0 < unit_scale.
Proof. reflexivity. Qed.

Lemma scaled_shift z e :
  -1074 <= e < 0 -> z * 2 ^ (e + 1074) / unit_scale = z / 2 ^ (- e).
Proof.
  intros He. unfold unit_scale.
  replace 1074 with ((- e) + (e + 1074)) at 2 by lia.
  rewrite (Z.pow_add_r 2 (- e) (e + 1074)) by lia.
  apply Z.div_mul_cancel_r; apply Z.pow_nonzero; lia.
Qed.

Lemma sval_finite s m e :
  sval (S754_finite s m e) = cond_Zopp s (Zpos m) * 2 ^ (e + 1074).
Proof. unfold sval, sign_of, mag. destruct s; unfold cond_Zopp; lia. Qed.

(** An integer below [2^53] in magnitude is a number. *)
Lemma of_integer_scaled z s :
  Z.abs z < 2 ^ 53 -> scaled (of_integer z s) = Some (z * unit_scale).
Proof.
  intros Hz. unfold of_integer, scaled.
  destruct (Z.eq_dec z 0) as [->|NZ].
  - simpl binary_normalize. destruct s; reflexivity.
  - pose proof (binary_normalize_spec z 0 s 0 ltac:(lia) ltac:(lia) NZ) as R.
    replace (0 + 1074 + 0) with 1074 in R by lia.
    assert (E : RN 0 (Z.abs z * 2 ^ 1074) = Z.abs z * 2 ^ 1074).
    { unfold RN.
      set (c := cexp 0 (Z.abs z * 2 ^ 1074)).
      assert (Hc : 0 <= c <= 1074).
      { unfold c, cexp. rewrite log2_mul_pow2 by lia.
        pose proof (log2_below_53 (Z.abs z) ltac:(lia)). lia. }
      replace (Z.abs z * 2 ^ 1074) with (Z.abs z * 2 ^ (1074 - c) * 2 ^ c).
      - rewrite rne_shift_exact by lia. f_equal. f_equal. lia.
      - rewrite <- Z.mul_assoc, <- Z.pow_add_r by lia. do 2 f_equal. lia. }
    rewrite E in R.
    assert (L : Z.abs z * 2 ^ 1074 < overflow).
    { change (2 ^ 1074) with (2 ^ (0 + 1074)).
      apply below_overflow; lia. }
    destruct (rounded_finite _ _ _ R L) as (F & V & S).
    rewrite (Prim2SF_SF2Prim _ V), F, S. f_equal. unfold unit_scale.
    destruct (Z.ltb_spec z 0); unfold cond_Zopp; lia.
Qed.

Theorem floor_scaled x X :
  scaled x = Some X ->
  scaled (Math_floor x) = Some (X / unit_scale * unit_scale).
Proof.
  intros H. destruct (scaled_inv x X H) as (F & V & E).
  unfold Math_floor.
  destruct (Prim2SF x) as [s|s| |s m e] eqn:P; try discriminate.
  - rewrite H. f_equal. rewrite <- E. destruct s; reflexivity.
  - destruct (valid_finite_bounds _ _ _ V) as (He & Hm & _).
    rewrite sval_finite in E.
    destruct (Z.leb_spec 0 e) as [L|L].
    + rewrite H. f_equal. rewrite <- E. unfold unit_scale.
      rewrite (Z.pow_add_r 2 e 1074) by lia.
      rewrite Z.mul_assoc, Z.div_mul by (apply Z.pow_nonzero; lia). reflexivity.
    + rewrite <- E, scaled_shift by lia.
      apply of_integer_scaled.
      assert (P2 : 0 < 2 ^ (- e)) by (apply pow2_gt0; lia).
      assert (- Zpos m <= cond_Zopp s (Zpos m) / 2 ^ (- e) <= Zpos m).
      { destruct s; unfold cond_Zopp.
        - split.
          + apply Z.div_le_lower_bound; [lia|]. nia.
          + assert (Z.neg m / 2 ^ (- e) < 0); [|lia].
            apply Z.div_lt_upper_bound; lia.
        - split.
          + assert (0 <= Zpos m / 2 ^ (- e)) by (apply Z.div_pos; lia). lia.
          + apply Z.div_le_upper_bound; [lia|]. nia. }
      lia.
Qed.

Theorem ceil_scaled x X :
  scaled x = Some X ->
  scaled (Math_ceil x) = Some (- (- X / unit_scale) * unit_scale).
Proof.
  intros H. destruct (scaled_inv x X H) as (F & V & E).
  unfold Math_ceil.
  destruct (Prim2SF x) as [s|s| |s m e] eqn:P; try discriminate.
  - rewrite H. f_equal. rewrite <- E. destruct s; reflexivity.
  - destruct (valid_finite_bounds _ _ _ V) as (He & Hm & _).
    rewrite sval_finite in E.
    destruct (Z.leb_spec 0 e) as [L|L].
    + rewrite H. f_equal. rewrite <- E. unfold unit_scale.
      rewrite (Z.pow_add_r 2 e 1074) by lia.
      rewrite Z.mul_assoc, <- Z.mul_opp_l.
      rewrite Z.div_mul by (apply Z.pow_nonzero; lia). lia.
    + rewrite <- E.
      replace (- (cond_Zopp s (Zpos m) * 2 ^ (e + 1074)))
        with (cond_Zopp (negb s) (Zpos m) * 2 ^ (e + 1074))
        by (destruct s; unfold cond_Zopp; simpl negb; lia).
      rewrite scaled_shift by lia.
      apply of_integer_scaled.
      assert (P2 : 0 < 2 ^ (- e)) by (apply pow2_gt0; lia).
      assert (- Zpos m <= cond_Zopp (negb s) (Zpos m) / 2 ^ (- e) <= Zpos m).
      { destruct s; unfold cond_Zopp; simpl negb.
        - split.
          + assert (0 <= Zpos m / 2 ^ (- e)) by (apply Z.div_pos; lia). lia.
          + apply Z.div_le_upper_bound; [lia|]. nia.
        - split.
          + apply Z.div_le_lower_bound; [lia|]. nia.
          + assert (Z.neg m / 2 ^ (- e) < 0); [|lia].
            apply Z.div_lt_upper_bound; lia. }
      lia.
Qed.

Lemma integer_value_scaled x z :
  scaled x = Some (z * unit_scale) -> integer_value x = Some z.
Proof.
  intros H. destruct (scaled_inv x _ H) as (F & V & E).
  unfold integer_value.
  destruct (Prim2SF x) as [s|s| |s m e] eqn:P; try discriminate.
  - f_equal. assert (sval (S754_zero s) = 0) by (destruct s; reflexivity).
    pose proof unit_scale_pos. nia.
  - destruct (valid_finite_bounds _ _ _ V) as (He & _).
    rewrite sval_finite in E. unfold unit_scale in E.
    destruct (Z.leb_spec 0 e) as [L|L].
    + f_equal. rewrite (Z.pow_add_r 2 e 1074), Z.mul_assoc in E by lia.
      apply Z.mul_reg_r in E; [|apply Z.pow_nonzero; lia].
      rewrite <- E. destruct s; unfold cond_Zopp; lia.
    + assert (P2 : 0 < 2 ^ (- e)) by (apply pow2_gt0; lia).
      assert (P3 : 0 < 2 ^ (e + 1074)) by (apply pow2_gt0; lia).
      assert (E' : cond_Zopp s (Zpos m) = z * 2 ^ (- e)).
      { replace 1074 with ((- e) + (e + 1074)) in E at 2 by lia.
        rewrite (Z.pow_add_r 2 (- e) (e + 1074)), Z.mul_assoc in E by lia.
        apply Z.mul_reg_r in E; [exact E | lia]. }
      assert (Em : Zpos m = Z.abs z * 2 ^ (- e)).
      { destruct s; unfold cond_Zopp in E'; nia. }
      rewrite Em, Z.mod_mul, Z.eqb_refl, Z.div_mul by lia.
      f_equal. destruct s; unfold cond_Zopp in *; nia.
Qed.

Lemma ToUint16_scaled x z :
  scaled x = Some (z * unit_scale) -> ToUint16 x = z mod 65536.
Proof.
  intros H. pose proof (integer_value_scaled x z H) as I.
  unfold integer_value in I. unfold ToUint16.
  destruct (Prim2SF x) as [s|s| |s m e] eqn:P; try discriminate.
  - inversion I. reflexivity.
  - destruct (Z.leb_spec 0 e) as [L|L].
    + inversion I. reflexivity.
    + destruct (Zpos m mod 2 ^ (- e) =? 0); [|discriminate].
      inversion I. reflexivity.
Qed.

(** ** Intervals of scaled values *)

Lemma within_const c C : scaled c = Some C -> within c C C.
Proof. intros H. exists C. split; [assumption | lia]. Qed.

Lemma within_weaken x lo hi lo' hi' :
  within x lo hi -> lo' <= lo -> hi <= hi' -> within x lo' hi'.
Proof. intros (X & H & B) L U. exists X. split; [assumption | lia]. Qed.

Lemma within_finite x lo hi : within x lo hi -> is_finite x = true.
Proof. intros (X & H & _). eapply is_finite_scaled; eassumption. Qed.

Lemma SRN_nonneg J z : 0 <= J -> 0 <= z -> SRN J z = RN J z.
Proof.
  intros HJ Hz. unfold SRN. destruct (Z.eq_dec z 0) as [->|N].
  - change (Z.abs 0) with 0. rewrite RN_zero by assumption. reflexivity.
  - rewrite Z.sgn_pos, Z.abs_eq by lia. lia.
Qed.

Lemma SRN_neg J z : 0 <= J -> z <= 0 -> SRN J z = - RN J (- z).
Proof.
  intros HJ Hz. unfold SRN. destruct (Z.eq_dec z 0) as [->|N].
  - change (Z.abs 0) with 0. change (- 0) with 0.
    rewrite RN_zero by assumption. reflexivity.
  - rewrite Z.sgn_neg, Z.abs_neq by lia. lia.
Qed.

Lemma SRN_mono J z z' : 0 <= J -> z <= z' -> SRN J z <= SRN J z'.
Proof.
  intros HJ H.
  destruct (Z.le_gt_cases 0 z) as [P|N].
  - rewrite !SRN_nonneg by lia. apply RN_mono; lia.
  - destruct (Z.le_gt_cases 0 z') as [P'|N'].
    + rewrite SRN_neg, (SRN_nonneg J z') by lia.
      pose proof (RN_nonneg J (- z) HJ ltac:(lia)).
      pose proof (RN_nonneg J z' HJ P'). lia.
    + rewrite !SRN_neg by lia.
      pose proof (RN_mono J (- z') (- z) HJ ltac:(lia)). lia.
Qed.

Lemma RN_abs_bound J z lo hi :
  0 <= J -> lo <= z <= hi ->
  RN J (Z.abs z) <= RN J (Z.max (Z.abs lo) (Z.abs hi)).
Proof. intros HJ H. apply RN_mono; lia. Qed.

Theorem within_add a b la ha lb hb :
  within a la ha -> within b lb hb ->
  RN 0 (Z.max (Z.abs (la + lb)) (Z.abs (ha + hb))) < overflow ->
  within (a + b)%float (SRN 0 (la + lb)) (SRN 0 (ha + hb)).
Proof.
  intros (A & HA & BA) (B & HB & BB) O.
  pose proof (RN_abs_bound 0 (A + B) (la + lb) (ha + hb) ltac:(lia) ltac:(lia)).
  exists (SRN 0 (A + B)). split.
  - apply add_scaled; try assumption. lia.
  - split; apply SRN_mono; lia.
Qed.

Theorem within_mul a b la ha lb hb :
  within a la ha -> within b lb hb -> 0 <= la -> 0 <= lb ->
  RN 1074 (ha * hb) < overflow ->
  within (a * b)%float (RN 1074 (la * lb)) (RN 1074 (ha * hb)).
Proof.
  intros (A & HA & BA) (B & HB & BB) La Lb O.
  assert (0 <= A * B) by nia.
  assert (A * B <= ha * hb) by nia.
  assert (la * lb <= A * B) by nia.
  pose proof (RN_mono 1074 (A * B) (ha * hb) ltac:(lia) ltac:(lia)).
  pose proof (RN_mono 1074 (la * lb) (A * B) ltac:(lia) ltac:(nia)).
  exists (RN 1074 (A * B)). split; [|lia].
  rewrite (mul_scaled a b A B HA HB) by (rewrite Z.abs_eq by lia; lia).
  f_equal. fold (SRN 1074 (A * B)). apply SRN_nonneg; lia.
Qed.

(** A number that is not negative times one that is not positive. *)
Theorem within_mul_neg a b la ha lb hb :
  within a la ha -> within b lb hb -> 0 <= la -> hb <= 0 ->
  RN 1074 (ha * - lb) < overflow ->
  within (a * b)%float (- RN 1074 (ha * - lb)) (- RN 1074 (la * - hb)).
Proof.
  intros (A & HA & BA) (B & HB & BB) La Hb O.
  assert (0 <= A * - B) by nia.
  assert (A * - B <= ha * - lb) by nia.
  assert (la * - hb <= A * - B) by nia.
  pose proof (RN_mono 1074 (A * - B) (ha * - lb) ltac:(lia) ltac:(lia)).
  pose proof (RN_mono 1074 (la * - hb) (A * - B) ltac:(lia) ltac:(nia)).
  exists (- RN 1074 (A * - B)). split; [|lia].
  assert (E : Z.abs (A * B) = A * - B) by (rewrite Z.abs_neq; nia).
  rewrite (mul_scaled a b A B HA HB) by (rewrite E; lia).
  f_equal. fold (SRN 1074 (A * B)). rewrite SRN_neg by nia.
  do 2 f_equal. lia.
Qed.

Theorem within_floor x lo hi :
  within x lo hi ->
  within (Math_floor x) (lo / unit_scale * unit_scale)
                        (hi / unit_scale * unit_scale).
Proof.
  intros (X & H & B). exists (X / unit_scale * unit_scale). split.
  - apply floor_scaled. assumption.
  - pose proof unit_scale_pos.
    assert (lo / unit_scale <= X / unit_scale) by (apply Z.div_le_mono; lia).
    assert (X / unit_scale <= hi / unit_scale) by (apply Z.div_le_mono; lia).
    nia.
Qed.

Theorem within_ceil x lo hi :
  within x lo hi ->
  within (Math_ceil x) (- (- lo / unit_scale) * unit_scale)
                       (- (- hi / unit_scale) * unit_scale).
Proof.
  intros (X & H & B). exists (- (- X / unit_scale) * unit_scale). split.
  - apply ceil_scaled. assumption.
  - pose proof unit_scale_pos.
    assert (- X / unit_scale <= - lo / unit_scale) by (apply Z.div_le_mono; lia).
    assert (- hi / unit_scale <= - X / unit_scale) by (apply Z.div_le_mono; lia).
    nia.
Qed.

(** ** Samples of the raw source *)

Lemma scaled_0 : scaled 0%float = Some 0.
Proof. reflexivity. Qed.

Lemma scaled_1 : scaled 1%float = Some unit_scale.
Proof. vm_compute. reflexivity. Qed.

Lemma compared_is_finite x lo hi :
  (lo <=? x)%float = true -> (x <? hi)%float = true ->
  is_finite lo = true -> is_finite hi = true ->
  exists X, scaled x = Some X.
Proof.
  rewrite FloatAxioms.leb_spec, FloatAxioms.ltb_spec. unfold SFleb, SFltb.
  intros L U Flo Fhi.
  destruct (scaled_finite lo Flo) as (Lo & Hlo).
  destruct (scaled_finite hi Fhi) as (Hi & Hhi).
  destruct (scaled_inv lo Lo Hlo) as (F1 & _).
  destruct (scaled_inv hi Hi Hhi) as (F2 & _).
  unfold scaled.
  destruct (Prim2SF x) as [s|s| |s m e]; try (eexists; reflexivity).
  - destruct s.
    + destruct (Prim2SF lo); discriminate.
    + destruct (Prim2SF hi); discriminate.
  - destruct (Prim2SF lo); discriminate.
Qed.

(** Below 1 there is no binary64 value above [1 - 2^-53]. *)
Lemma below_one_is_largest x :
  valid_binary x = true -> finite_SF x = true ->
  0 <= sval x < unit_scale -> sval x <= below_one.
Proof.
  intros V F B. unfold below_one.
  destruct x as [s|s| |s m e]; try discriminate.
  - assert (sval (S754_zero s) = 0) by (destruct s; reflexivity). lia.
  - destruct (valid_finite_bounds _ _ _ V) as (He & Hm & Hn).
    rewrite sval_finite in *. unfold unit_scale in B.
    assert (P : 0 < 2 ^ (e + 1074)) by (apply pow2_gt0; lia).
    destruct s; unfold cond_Zopp in *; [nia|].
    destruct (Z.le_gt_cases (-52) e) as [G|L].
    + exfalso. specialize (Hn ltac:(lia)).
      assert (Q : 2 ^ 1022 <= 2 ^ (e + 1074)) by (apply pow2_le; lia).
      assert (E : 2 ^ 1074 = 2 ^ 52 * 2 ^ 1022) by reflexivity.
      assert (Pv : 0 < 2 ^ 1022) by reflexivity.
      assert (Pw : 0 < 2 ^ 52) by reflexivity.
      rewrite E in B. revert B Hn Q Pv Pw.
      generalize (2 ^ (e + 1074)) (2 ^ 1022) (2 ^ 52). intros u v w. nia.
    + assert (Q : 2 ^ (e + 1074) <= 2 ^ 1021) by (apply pow2_le; lia).
      assert (E : 2 ^ 1074 - 2 ^ 1021 = (2 ^ 53 - 1) * 2 ^ 1021) by reflexivity.
      assert (Pv : 0 < 2 ^ 1021) by reflexivity.
      rewrite E. revert P Q Hm Pv.
      generalize (2 ^ (e + 1074)) (2 ^ 1021) (2 ^ 53). intros u v w. nia.
Qed.

Theorem within_unit p : unit_interval p = true -> within p 0 below_one.
Proof.
  unfold unit_interval. intros H. apply andb_true_iff in H. destruct H as [L U].
  destruct (compared_is_finite p 0 1 L U eq_refl eq_refl) as (P & HP).
  rewrite (leb_scaled _ _ _ _ scaled_0 HP) in L.
  rewrite (ltb_scaled _ _ _ _ HP scaled_1) in U.
  apply Z.leb_le in L. apply Z.ltb_lt in U.
  destruct (scaled_inv p P HP) as (F & V & E).
  exists P. split; [assumption|]. split; [assumption|].
  rewrite <- E. apply below_one_is_largest; try assumption. lia.
Qed.

Theorem unit_of_within p hi :
  within p 0 hi -> hi < unit_scale -> unit_interval p = true.
Proof.
  intros (P & HP & B) H. unfold unit_interval.
  rewrite (leb_scaled _ _ _ _ scaled_0 HP), (ltb_scaled _ _ _ _ HP scaled_1).
  apply andb_true_iff. split; [apply Z.leb_le | apply Z.ltb_lt]; lia.
Qed.

Lemma leb_within a b la ha lb hb :
  within a la ha -> within b lb hb -> ha <= lb -> (a <=? b)%float = true.
Proof.
  intros (A & HA & BA) (B & HB & BB) H.
  rewrite (leb_scaled _ _ _ _ HA HB). apply Z.leb_le. lia.
Qed.

(** An upper bound read off a comparison. *)
Lemma within_leb a b la ha B :
  within a la ha -> scaled b = Some B -> (a <=? b)%float = true ->
  within a la (Z.min ha B).
Proof.
  intros (A & HA & BA) HB L.
  rewrite (leb_scaled _ _ _ _ HA HB) in L. apply Z.leb_le in L.
  exists A. split; [assumption | lia].
Qed.

(** ** The arithmetic of the primitives *)

Lemma within_eval x lo hi L H :
  within x lo hi -> lo = L -> hi = H -> within x L H.
Proof. intros W <- <-. exact W. Qed.

Lemma floor_integer x lo hi L H :
  within x lo hi -> lo / unit_scale = L -> hi / unit_scale = H ->
  exists z, integer_value (Math_floor x) = Some z /\
            scaled (Math_floor x) = Some (z * unit_scale) /\ L <= z <= H.
Proof.
  intros (X & HX & B) <- <-. exists (X / unit_scale).
  pose proof (floor_scaled x X HX) as F. pose proof unit_scale_pos.
  split; [apply integer_value_scaled; exact F|]. split; [exact F|].
  split; apply Z.div_le_mono; lia.
Qed.

Lemma ceil_integer x lo hi L H :
  within x lo hi -> - (- lo / unit_scale) = L -> - (- hi / unit_scale) = H ->
  exists z, integer_value (Math_ceil x) = Some z /\
            scaled (Math_ceil x) = Some (z * unit_scale) /\ L <= z <= H.
Proof.
  intros (X & HX & B) <- <-. exists (- (- X / unit_scale)).
  pose proof (ceil_scaled x X HX) as F. pose proof unit_scale_pos.
  split; [apply integer_value_scaled; exact F|]. split; [exact F|].
  assert (- X / unit_scale <= - lo / unit_scale) by (apply Z.div_le_mono; lia).
  assert (- hi / unit_scale <= - X / unit_scale) by (apply Z.div_le_mono; lia).
  lia.
Qed.

Lemma scaled_100 : scaled 100%float = Some (100 * unit_scale).
Proof. vm_compute. reflexivity. Qed.

Lemma scaled_95 : scaled 95%float = Some (95 * unit_scale).
Proof. vm_compute. reflexivity. Qed.

Lemma scaled_32 : scaled 32%float = Some (32 * unit_scale).
Proof. vm_compute. reflexivity. Qed.

Lemma scaled_MAX : scaled MAX_SAFE_INTEGER = Some (9007199254740991 * unit_scale).
Proof. vm_compute. reflexivity. Qed.

Lemma scaled_MIN : scaled MIN_SAFE_INTEGER = Some (-9007199254740991 * unit_scale).
Proof. vm_compute. reflexivity. Qed.

(** [floor(100 * w)] for [0 <= w < 1] is one of 0 .. 99. *)
Theorem hundredfold_floor w :
  unit_interval w = true ->
  exists n : nat, (n < 100)%nat /\
    integer_value (Math_floor (100 * w)) = Some (Z.of_nat n).
Proof.
  intros Hw. pose proof (within_unit w Hw) as W.
  pose proof (within_mul 100 w _ _ _ _ (within_const _ _ scaled_100) W
                ltac:(vm_compute; discriminate) ltac:(lia)
                ltac:(vm_compute; reflexivity)) as M.
  destruct (floor_integer _ _ _ 0 99 M ltac:(vm_compute; reflexivity)
              ltac:(vm_compute; reflexivity)) as (z & I & _ & B).
  exists (Z.to_nat z). split; [lia|]. rewrite I. f_equal. lia.
Qed.

(** [floor(q * (126 + 1 - 32) + 32)] for [0 <= q < 1] is one of 32 .. 126. *)
Theorem printable_code q :
  unit_interval q = true ->
  exists z, 32 <= z <= 126 /\
    integer_value (Math_floor (q * (126 + 1 - 32) + 32)) = Some z /\
    ToUint16 (Math_floor (q * (126 + 1 - 32) + 32)) = z.
Proof.
  intros Hq. pose proof (within_unit q Hq) as Q.
  change (126 + 1 - 32)%float with 95%float.
  pose proof (within_mul q 95 _ _ _ _ Q (within_const _ _ scaled_95)
                ltac:(lia) ltac:(vm_compute; discriminate)
                ltac:(vm_compute; reflexivity)) as M.
  pose proof (within_add _ 32 _ _ _ _ M (within_const _ _ scaled_32)
                ltac:(vm_compute; reflexivity)) as S.
  destruct (floor_integer _ _ _ 32 126 S ltac:(vm_compute; reflexivity)
              ltac:(vm_compute; reflexivity)) as (z & I & F & B).
  exists z. split; [assumption|]. split; [assumption|].
  rewrite (ToUint16_scaled _ z F). apply Z.mod_small. lia.
Qed.

(** The two branches of [int], for a weight [0 <= w < 1]. *)
Theorem int_negative_branch w :
  within w 0 below_one ->
  exists z, scaled (Math_ceil (w * MIN_SAFE_INTEGER)) = Some (z * unit_scale) /\
            -9007199254740991 <= z <= 0.
Proof.
  intros W.
  pose proof (within_mul_neg w _ _ _ _ _ W (within_const _ _ scaled_MIN)
                ltac:(lia) ltac:(vm_compute; discriminate)
                ltac:(vm_compute; reflexivity)) as M.
  destruct (ceil_integer _ _ _ (-9007199254740990) 0 M
              ltac:(vm_compute; reflexivity) ltac:(vm_compute; reflexivity))
    as (z & _ & F & B).
  exists z. split; [assumption | lia].
Qed.

Theorem int_positive_branch w :
  within w 0 below_one ->
  exists z, scaled (Math_floor (w * MAX_SAFE_INTEGER)) = Some (z * unit_scale) /\
            0 <= z <= 9007199254740991.
Proof.
  intros W.
  pose proof (within_mul w _ _ _ _ _ W (within_const _ _ scaled_MAX)
                ltac:(lia) ltac:(vm_compute; discriminate)
                ltac:(vm_compute; reflexivity)) as M.
  destruct (floor_integer _ _ _ 0 9007199254740990 M
              ltac:(vm_compute; reflexivity) ltac:(vm_compute; reflexivity))
    as (z & _ & F & B).
  exists z. split; [assumption | lia].
Qed.

Lemma scaled_half_power : scaled 0x1p-30%float = Some (2 ^ 1044).
Proof. vm_compute. reflexivity. Qed.

(** The negative branch for a weight of at most [2^-30]. *)
Theorem int_negative_branch_small w :
  within w 0 (2 ^ 1044) ->
  exists z, scaled (Math_ceil (w * MIN_SAFE_INTEGER)) = Some (z * unit_scale) /\
            -8388607 <= z <= 0.
Proof.
  intros W.
  pose proof (within_mul_neg w _ _ _ _ _ W (within_const _ _ scaled_MIN)
                ltac:(lia) ltac:(vm_compute; discriminate)
                ltac:(vm_compute; reflexivity)) as M.
  destruct (ceil_integer _ _ _ (-8388607) 0 M
              ltac:(vm_compute; reflexivity) ltac:(vm_compute; reflexivity))
    as (z & _ & F & B).
  exists z. split; assumption.
Qed.

(** An integer of at most 53 bits plus a sample is finite. *)
Theorem integer_plus_sample i p z :
  scaled i = Some (z * unit_scale) ->
  -9007199254740991 <= z <= 9007199254740991 ->
  unit_interval p = true ->
  is_finite (i + p) = true.
Proof.
  intros Hi Hz Hp. pose proof (within_unit p Hp) as P.
  assert (I : within i (-9007199254740991 * unit_scale)
                       (9007199254740991 * unit_scale)).
  { exists (z * unit_scale). split; [assumption|].
    pose proof unit_scale_pos. nia. }
  pose proof (within_add i p _ _ _ _ I P ltac:(vm_compute; reflexivity)) as S.
  eapply within_finite; exact S.
Qed.

(** ** [power_by_products] is an admissible exponentiation *)

Lemma RN_pow2 J a : 0 <= J -> J + 52 <= a -> RN J (2 ^ a) = 2 ^ (a - J).
Proof.
  intros HJ Ha. unfold RN.
  assert (Ec : cexp J (2 ^ a) = a - 52).
  { unfold cexp. rewrite Z.log2_pow2 by lia. lia. }
  rewrite Ec.
  replace (2 ^ a) with (2 ^ 52 * 2 ^ (a - 52))
    by (rewrite <- Z.pow_add_r by lia; f_equal; lia).
  rewrite rne_shift_exact by lia.
  rewrite <- Z.pow_add_r by lia. f_equal. lia.
Qed.

Lemma repeated_product_unit x n :
  within x 0 below_one -> within (repeated_product x n) 0 unit_scale.
Proof.
  intros X. induction n as [|n IH].
  - apply within_weaken with (lo := unit_scale) (hi := unit_scale);
      [apply within_const; exact scaled_1 | discriminate | lia].
  - simpl repeated_product.
    pose proof (within_mul _ _ _ _ _ _ IH X ltac:(lia) ltac:(lia)
                  ltac:(vm_compute; reflexivity)) as M.
    eapply within_weaken; [exact M | vm_compute; discriminate
                                   | vm_compute; discriminate].
Qed.

Lemma repeated_product_below_one x n :
  within x 0 below_one -> within (repeated_product x (S n)) 0 below_one.
Proof.
  intros X. simpl repeated_product.
  pose proof (within_mul _ _ _ _ _ _ (repeated_product_unit x n X) X
                ltac:(lia) ltac:(lia) ltac:(vm_compute; reflexivity)) as M.
  eapply within_weaken; [exact M | vm_compute; discriminate
                                 | vm_compute; discriminate].
Qed.

Lemma repeated_product_halves x n :
  (n <= 30)%nat ->
  within x 0 (2 ^ 1073) ->
  within (repeated_product x n) 0 (2 ^ (1074 - Z.of_nat n)).
Proof.
  intros Hn X. induction n as [|n IH].
  - apply within_weaken with (lo := unit_scale) (hi := unit_scale);
      [apply within_const; exact scaled_1 | discriminate | reflexivity].
  - simpl repeated_product. specialize (IH ltac:(lia)).
    assert (E : 2 ^ (1074 - Z.of_nat n) * 2 ^ 1073 = 2 ^ (2147 - Z.of_nat n)).
    { rewrite <- Z.pow_add_r by lia. f_equal. lia. }
    assert (R : RN 1074 (2 ^ (1074 - Z.of_nat n) * 2 ^ 1073)
                = 2 ^ (1074 - Z.of_nat (S n))).
    { rewrite E, RN_pow2 by lia. f_equal. lia. }
    assert (O : RN 1074 (2 ^ (1074 - Z.of_nat n) * 2 ^ 1073) < overflow).
    { rewrite R. unfold overflow. apply Z.pow_lt_mono_r; lia. }
    pose proof (within_mul _ _ _ _ _ _ IH X ltac:(lia) ltac:(lia) O) as M.
    rewrite R in M.
    eapply within_weaken; [exact M | vm_compute; discriminate | lia].
Qed.

Theorem power_by_products_unit x :
  unit_interval x = true -> unit_interval (power_by_products x 30) = true.
Proof.
  intros H. change (power_by_products x 30) with (repeated_product x 30).
  apply unit_of_within with (hi := below_one); [|reflexivity].
  apply repeated_product_below_one, within_unit, H.
Qed.

Lemma scaled_half : scaled 0.5%float = Some (2 ^ 1073).
Proof. vm_compute. reflexivity. Qed.

Theorem power_by_products_half x :
  unit_interval x = true -> (x <? 0.5)%float = true ->
  (power_by_products x 30 <=? 0x1p-30)%float = true.
Proof.
  intros H L. change (power_by_products x 30) with (repeated_product x 30).
  destruct (within_unit x H) as (X & HX & B).
  rewrite (ltb_scaled _ _ _ _ HX scaled_half) in L. apply Z.ltb_lt in L.
  assert (W : within x 0 (2 ^ 1073)) by (exists X; split; [assumption | lia]).
  pose proof (repeated_product_halves x 30 ltac:(lia) W) as P.
  eapply leb_within; [exact P | apply within_const; exact scaled_half_power |].
  reflexivity.
Qed.

Theorem power_by_products_zero : power_by_products 0 30 = 0%float.
Proof. reflexivity. Qed.

(** ** Subtraction and integral numbers *)

(** The difference of two finite numbers is the rounding of the exact
    difference, as long as that is in range. *)
Theorem sub_scaled a b A B :
  scaled a = Some A -> scaled b = Some B ->
  RN 0 (Z.abs (A - B)) < overflow ->
  scaled (a - b) = Some (SRN 0 (A - B)).
Proof.
  intros Ha Hb Hr. unfold SRN.
  destruct (scaled_inv a A Ha) as (Fa & Va & Ea).
  destruct (scaled_inv b B Hb) as (Fb & Vb & Eb).
  unfold scaled. rewrite FloatAxioms.sub_spec. unfold SF64sub.
  destruct (Prim2SF a) as [sa|sa| |sa ma ea] eqn:Pa; try discriminate;
    destruct (Prim2SF b) as [sb|sb| |sb mb eb] eqn:Pb; try discriminate.
  - replace A with 0 by (rewrite <- Ea; destruct sa; reflexivity).
    replace B with 0 by (rewrite <- Eb; destruct sb; reflexivity).
    simpl. destruct sa, sb; reflexivity.
  - replace A with 0 in * by (rewrite <- Ea; destruct sa; reflexivity).
    rewrite Z.sub_0_l. unfold SFsub, finite_SF. f_equal.
    rewrite Z.abs_opp, <- Eb, sval_abs, (RN_valid _ Vb).
    destruct (valid_finite_bounds _ _ _ Vb) as (He & _).
    pose proof (mag_finite_pos sb mb eb ltac:(lia)) as P.
    unfold sval, sign_of. change (mag (S754_finite (negb sb) mb eb))
      with (mag (S754_finite sb mb eb)).
    destruct sb; unfold cond_Zopp; simpl negb.
    + rewrite Z.opp_involutive, Z.sgn_pos by lia. lia.
    + rewrite Z.sgn_neg by lia. lia.
  - replace B with 0 in * by (rewrite <- Eb; destruct sb; reflexivity).
    rewrite Z.sub_0_r. unfold SFsub. rewrite Fa. f_equal.
    rewrite <- Ea. rewrite sval_abs, (RN_valid _ Va), <- sval_abs.
    symmetry. rewrite Z.mul_comm. apply Z.abs_sgn.
  - destruct (valid_finite_bounds _ _ _ Va) as (Hea & _).
    destruct (valid_finite_bounds _ _ _ Vb) as (Heb & _).
    unfold SFsub. change (IntDef.Z.min ea eb) with (Z.min ea eb).
    rewrite (shl_align_value ma ea (Z.min ea eb)) by lia.
    rewrite (shl_align_value mb eb (Z.min ea eb)) by lia.
    set (ez := Z.min ea eb).
    set (z := cond_Zopp sa (Zpos ma * 2 ^ (ea - ez))
              - cond_Zopp sb (Zpos mb * 2 ^ (eb - ez))).
    assert (Ez : z * 2 ^ (ez + 1074) = A - B).
    { rewrite <- Ea, <- Eb. unfold z, sval, sign_of, mag.
      replace (ea + 1074) with ((ea - ez) + (ez + 1074)) by lia.
      replace (eb + 1074) with ((eb - ez) + (ez + 1074)) by lia.
      rewrite (Z.pow_add_r 2 (ea - ez) (ez + 1074)) by (unfold ez; lia).
      rewrite (Z.pow_add_r 2 (eb - ez) (ez + 1074)) by (unfold ez; lia).
      destruct sa, sb; unfold cond_Zopp; ring. }
    assert (Pz : 0 < 2 ^ (ez + 1074)) by (apply pow2_gt0; unfold ez; lia).
    destruct (Z.eq_dec z 0) as [Z0|NZ].
    + rewrite Z0 in *. simpl binary_normalize.
      rewrite <- Ez, Z.mul_0_l. reflexivity.
    + pose proof (binary_normalize_spec z ez false 0 ltac:(lia)
                    ltac:(unfold ez; lia) NZ) as R.
      replace (Z.abs z * 2 ^ (ez + 1074 + 0)) with (Z.abs (A - B)) in R.
      2:{ rewrite <- Ez, Z.abs_mul, Z.add_0_r. f_equal. lia. }
      destruct (rounded_finite _ _ _ R Hr) as (F & V & S).
      rewrite F, S. f_equal.
      assert (Z.sgn (A - B) = Z.sgn z).
      { rewrite <- Ez, Z.sgn_mul. lia. }
      destruct (Z.ltb_spec z 0); unfold cond_Zopp; lia.
Qed.

(** Integers of at most 53 bits are their own rounding. *)
Lemma RN_integer z :
  0 <= z < 2 ^ 53 -> RN 0 (z * unit_scale) = z * unit_scale.
Proof.
  intros Hz. destruct (Z.eq_dec z 0) as [->|N]; [apply RN_zero; lia|].
  unfold RN, unit_scale.
  set (c := cexp 0 (z * 2 ^ 1074)).
  assert (Hc : 0 <= c <= 1074).
  { unfold c, cexp. rewrite log2_mul_pow2 by lia.
    pose proof (log2_below_53 z ltac:(lia)). lia. }
  replace (z * 2 ^ 1074) with (z * 2 ^ (1074 - c) * 2 ^ c).
  - rewrite rne_shift_exact by lia. f_equal. f_equal. lia.
  - rewrite <- Z.mul_assoc, <- Z.pow_add_r by lia. do 2 f_equal. lia.
Qed.

Lemma SRN_integer z :
  Z.abs z < 2 ^ 53 -> SRN 0 (z * unit_scale) = z * unit_scale.
Proof.
  intros Hz. pose proof unit_scale_pos as Pu.
  destruct (Z.le_gt_cases 0 z) as [P|N].
  - rewrite SRN_nonneg by nia. apply RN_integer. lia.
  - rewrite SRN_neg by nia.
    replace (- (z * unit_scale)) with (- z * unit_scale) by lia.
    rewrite RN_integer by lia. lia.
Qed.

(** Rounding a product with 1 is rounding the other factor. *)
Lemma RN_lift x : 0 <= x -> RN 1074 (x * unit_scale) = RN 0 x.
Proof.
  intros Hx. destruct (Z.eq_dec x 0) as [->|N].
  { rewrite Z.mul_0_l, !RN_zero by lia. reflexivity. }
  unfold RN, unit_scale.
  assert (Ec : cexp 1074 (x * 2 ^ 1074) = cexp 0 x + 1074).
  { unfold cexp. rewrite log2_mul_pow2 by lia. lia. }
  rewrite Ec. pose proof (cexp_ge 0 x) as G.
  replace (cexp 0 x + 1074 - 1074) with (cexp 0 x - 0) by lia.
  f_equal.
  destruct (Z.eq_dec (cexp 0 x) 0) as [E|E].
  - rewrite E. simpl Z.add. rewrite rne_shift_exact by lia.
    unfold rne_shift. reflexivity.
  - apply rne_shift_scale; lia.
Qed.

Lemma scaled_of_integer_value x z :
  integer_value x = Some z -> scaled x = Some (z * unit_scale).
Proof.
  unfold integer_value, scaled. pose proof (Prim2SF_valid x) as V.
  destruct (Prim2SF x) as [s|s| |s m e]; try discriminate.
  - intros [= <-]. destruct s; reflexivity.
  - destruct (valid_finite_bounds _ _ _ V) as (He & _).
    unfold finite_SF. rewrite sval_finite. unfold unit_scale.
    destruct (Z.leb_spec 0 e) as [L|L].
    + intros H.
      assert (Hz : z = cond_Zopp s (Zpos m * 2 ^ e)) by congruence.
      rewrite Hz. f_equal.
      rewrite (Z.pow_add_r 2 e 1074) by lia.
      destruct s; unfold cond_Zopp; ring.
    + destruct (Z.eqb_spec (Zpos m mod 2 ^ (- e)) 0) as [D|D]; [|discriminate].
      intros H.
      assert (Hz : z = cond_Zopp s (Zpos m / 2 ^ (- e))) by congruence.
      rewrite Hz. f_equal.
      assert (P2 : 0 < 2 ^ (- e)) by (apply pow2_gt0; lia).
      pose proof (Z.div_mod (Zpos m) (2 ^ (- e)) ltac:(lia)) as DM.
      rewrite D, Z.add_0_r in DM.
      replace 1074 with ((- e) + (e + 1074)) at 2 by lia.
      rewrite (Z.pow_add_r 2 (- e) (e + 1074)) by lia.
      destruct s; unfold cond_Zopp; nia.
Qed.

(** ** [intRange] for integral bounds *)

Lemma integer_below_overflow z : 0 <= z < 2 ^ 53 -> z * unit_scale < overflow.
Proof.
  intros Hz. unfold unit_scale. change 1074 with (0 + 1074).
  apply below_overflow; lia.
Qed.

Lemma abs_scaled z : Z.abs (z * unit_scale) = Z.abs z * unit_scale.
Proof.
  pose proof unit_scale_pos.
  rewrite Z.abs_mul, (Z.abs_eq unit_scale) by lia. reflexivity.
Qed.

Lemma add_integers a b x y :
  scaled a = Some (x * unit_scale) -> scaled b = Some (y * unit_scale) ->
  Z.abs (x + y) < 2 ^ 53 ->
  scaled (a + b) = Some ((x + y) * unit_scale).
Proof.
  intros Ha Hb H.
  rewrite (add_scaled a b _ _ Ha Hb);
    rewrite <- Z.mul_add_distr_r.
  - f_equal. apply SRN_integer. assumption.
  - rewrite abs_scaled, RN_integer by lia.
    apply integer_below_overflow. lia.
Qed.

Lemma sub_integers a b x y :
  scaled a = Some (x * unit_scale) -> scaled b = Some (y * unit_scale) ->
  Z.abs (x - y) < 2 ^ 53 ->
  scaled (a - b) = Some ((x - y) * unit_scale).
Proof.
  intros Ha Hb H.
  rewrite (sub_scaled a b _ _ Ha Hb);
    rewrite <- Z.mul_sub_distr_r.
  - f_equal. apply SRN_integer. assumption.
  - rewrite abs_scaled, RN_integer by lia.
    apply integer_below_overflow. lia.
Qed.

(** A sample times an integer [n] lies between 0 and [n]. *)
Lemma sample_times_integer p b n :
  unit_interval p = true -> scaled b = Some (n * unit_scale) ->
  Z.abs n < 2 ^ 53 ->
  within (p * b)%float (Z.min 0 n * unit_scale) (Z.max 0 n * unit_scale).
Proof.
  intros Hp Hb Hn. destruct (within_unit p Hp) as (P & HP & BP).
  pose proof unit_scale_pos as Pu.
  assert (BP' : 0 <= P <= unit_scale).
  { split; [lia|]. unfold below_one, unit_scale in *.
    assert (0 < 2 ^ 1021) by reflexivity. lia. }
  assert (E : Z.abs (P * (n * unit_scale)) = P * (Z.abs n * unit_scale)).
  { rewrite Z.abs_mul, abs_scaled. f_equal. lia. }
  assert (R : RN 1074 (Z.abs (P * (n * unit_scale))) <= Z.abs n * unit_scale).
  { rewrite E.
    assert (A0 : 0 <= Z.abs n * unit_scale) by lia.
    assert (Q : 0 <= P * (Z.abs n * unit_scale)
                <= Z.abs n * unit_scale * unit_scale).
    { split; [apply Z.mul_nonneg_nonneg; lia|].
      rewrite (Z.mul_comm P). apply Z.mul_le_mono_nonneg_l; lia. }
    pose proof (RN_mono 1074 _ _ ltac:(lia) Q) as M.
    rewrite RN_lift, RN_integer in M by lia. exact M. }
  pose proof (RN_nonneg 1074 (Z.abs (P * (n * unit_scale))) ltac:(lia)
                ltac:(lia)) as R0.
  pose proof (integer_below_overflow (Z.abs n) ltac:(lia)) as O.
  exists (Z.sgn (P * (n * unit_scale)) * RN 1074 (Z.abs (P * (n * unit_scale)))).
  split; [apply mul_scaled; try assumption; lia|].
  destruct (Z.le_gt_cases 0 n) as [Pn|Nn].
  - destruct (Z.eq_dec (P * (n * unit_scale)) 0) as [Z0|NZ].
    + rewrite Z0. simpl. nia.
    + rewrite Z.sgn_pos by nia. nia.
  - destruct (Z.eq_dec (P * (n * unit_scale)) 0) as [Z0|NZ].
    + rewrite Z0. simpl. nia.
    + rewrite Z.sgn_neg by nia. nia.
Qed.

(** For integral bounds of at most 51 bits, whatever their order,
    [floor(p * (max + 1 - min) + min)] is an integer between [min] and
    [max + 1]. *)
Theorem intRange_value_between min max p m M :
  integer_value min = Some m -> integer_value max = Some M ->
  Z.abs m <= 2 ^ 51 -> Z.abs M <= 2 ^ 51 ->
  unit_interval p = true ->
  exists z,
    integer_value (Math_floor (p * (max + 1 - min) + min)) = Some z /\
    Z.min m (M + 1) <= z <= Z.max m (M + 1).
Proof.
  intros Im IM Hm HM Hp.
  pose proof (scaled_of_integer_value _ _ Im) as Sm.
  pose proof (scaled_of_integer_value _ _ IM) as SM.
  assert (S1 : scaled 1%float = Some (1 * unit_scale))
    by (rewrite scaled_1; f_equal; lia).
  assert (B51 : 2 ^ 53 = 4 * 2 ^ 51) by reflexivity.
  assert (P51 : 0 < 2 ^ 51) by reflexivity.
  pose proof (add_integers _ _ _ _ SM S1 ltac:(lia)) as Sa.
  pose proof (sub_integers _ _ _ _ Sa Sm ltac:(lia)) as Sn.
  set (n := M + 1 - m) in *.
  destruct (sample_times_integer p _ n Hp Sn ltac:(lia)) as (X & HX & BX).
  pose proof unit_scale_pos as Pu.
  assert (Lo : Z.min 0 n * unit_scale + m * unit_scale
               = Z.min m (M + 1) * unit_scale) by (unfold n; nia).
  assert (Hi : Z.max 0 n * unit_scale + m * unit_scale
               = Z.max m (M + 1) * unit_scale) by (unfold n; nia).
  assert (W : within (p * (max + 1 - min) + min)%float
                (Z.min m (M + 1) * unit_scale) (Z.max m (M + 1) * unit_scale)).
  { exists (SRN 0 (X + m * unit_scale)). split.
    - apply add_scaled; try assumption.
      eapply Z.le_lt_trans;
        [apply (RN_mono 0 _ ((2 ^ 53 - 1) * unit_scale)); [lia|] |].
      + split; [lia|].
        assert (Z.abs (X + m * unit_scale) <= (Z.abs n + Z.abs m) * unit_scale)
          by nia.
        assert (Z.abs n + Z.abs m <= 2 ^ 53 - 1) by (unfold n; lia).
        nia.
      + rewrite RN_integer by (split; [discriminate | reflexivity]).
        apply integer_below_overflow. split; [discriminate | reflexivity].
    - rewrite <- (SRN_integer (Z.min m (M + 1))) by lia.
      rewrite <- (SRN_integer (Z.max m (M + 1))) by lia.
      rewrite <- Lo, <- Hi. split; apply SRN_mono; lia. }
  destruct (floor_integer _ _ _ (Z.min m (M + 1)) (Z.max m (M + 1)) W
              ltac:(apply Z.div_mul; lia) ltac:(apply Z.div_mul; lia))
    as (z & I & _ & B).
  exists z. split; assumption.
Qed.

(** ** Small weights, and integers plus a fraction *)

(** [floor(100 * w)] for a weight of at most [2^-30] is 0. *)
Theorem hundredfold_small w :
  within w 0 (2 ^ 1044) -> integer_value (Math_floor (100 * w)) = Some 0.
Proof.
  intros W.
  pose proof (within_mul 100 w _ _ _ _ (within_const _ _ scaled_100) W
                ltac:(vm_compute; discriminate) ltac:(lia)
                ltac:(vm_compute; reflexivity)) as M.
  destruct (floor_integer _ _ _ 0 0 M ltac:(vm_compute; reflexivity)
              ltac:(vm_compute; reflexivity)) as (z & I & _ & B).
  rewrite I. f_equal. lia.
Qed.

Lemma two_to_53_scaled : 2 ^ 53 * unit_scale = 2 ^ 1127.
Proof. unfold unit_scale. rewrite <- (Z.pow_add_r 2 53 1074) by lia. reflexivity. Qed.

(** An integer of at most 53 bits plus a number from 0 to 1 lies between the
    integer and the next one; plus 1, it is the next one. *)
Theorem integer_plus_fraction i p z P :
  scaled i = Some (z * unit_scale) -> Z.abs z < 2 ^ 53 ->
  scaled p = Some P -> 0 <= P <= unit_scale ->
  exists X, scaled (i + p) = Some X /\
            z * unit_scale <= X <= (z + 1) * unit_scale /\
            (P = unit_scale -> X = (z + 1) * unit_scale).
Proof.
  intros Hi Hz Hp HP. pose proof unit_scale_pos as Pu.
  pose proof two_to_53_scaled as T53.
  assert (R53 : RN 0 (2 ^ 1127) = 2 ^ 1127).
  { rewrite RN_pow2 by lia. f_equal. }
  assert (T : SRN 0 ((z + 1) * unit_scale) = (z + 1) * unit_scale).
  { destruct (Z.eq_dec (z + 1) (2 ^ 53)) as [E|E].
    - rewrite E, T53. rewrite SRN_nonneg by (try lia; apply Z.pow_nonneg; lia).
      exact R53.
    - apply SRN_integer. lia. }
  assert (O : RN 0 (Z.abs (z * unit_scale + P)) < overflow).
  { apply Z.le_lt_trans with (RN 0 (2 ^ 1127)).
    - apply RN_mono; [lia|]. split; [apply Z.abs_nonneg|].
      rewrite <- T53.
      assert (Z.abs (z * unit_scale + P) <= Z.abs z * unit_scale + P).
      { rewrite <- abs_scaled. lia. }
      nia.
    - rewrite R53. unfold overflow. apply Z.pow_lt_mono_r; lia. }
  exists (SRN 0 (z * unit_scale + P)).
  split; [apply add_scaled; assumption|].
  split; [split|].
  - rewrite <- (SRN_integer z Hz) at 1. apply SRN_mono; lia.
  - rewrite <- T. apply SRN_mono; lia.
  - intros ->. rewrite <- T. f_equal. lia.
Qed.

(** ** [intRange] for a range that contains 0 *)

(** Less than half a unit is rounded away. *)
Lemma rne_shift_down q r k :
  0 < k -> 0 <= r < 2 ^ (k - 1) -> rne_shift (q * 2 ^ k + r) k = q.
Proof.
  intros Hk Hr. unfold rne_shift.
  destruct (Z.leb_spec k 0); [lia|].
  assert (Hp : 0 < 2 ^ k) by (apply pow2_gt0; lia).
  assert (Hh : 2 ^ k = 2 * 2 ^ (k - 1)).
  { rewrite <- pow2_succ by lia. f_equal. lia. }
  assert (Eq : (q * 2 ^ k + r) / 2 ^ k = q).
  { rewrite Z.div_add_l by lia. rewrite Z.div_small by lia. lia. }
  assert (Er : (q * 2 ^ k + r) mod 2 ^ k = r).
  { rewrite Z.add_comm, Z.mod_add by lia. apply Z.mod_small. lia. }
  cbv zeta. rewrite Eq, Er.
  destruct (Z.ltb_spec r (2 ^ (k - 1))); [reflexivity | lia].
Qed.

(** A mantissa of at most 53 bits with an exponent is its own rounding. *)
Lemma RN_mantissa a e :
  0 <= a < 2 ^ 53 -> 0 <= e -> RN 0 (a * 2 ^ e) = a * 2 ^ e.
Proof.
  intros Ha He. destruct (Z.eq_dec a 0) as [->|N]; [apply RN_zero; lia|].
  unfold RN. set (c := cexp 0 (a * 2 ^ e)).
  assert (Hc : 0 <= c <= e).
  { unfold c, cexp. rewrite log2_mul_pow2 by lia.
    pose proof (log2_below_53 a ltac:(lia)). lia. }
  replace (a * 2 ^ e) with (a * 2 ^ (e - c) * 2 ^ c).
  - rewrite rne_shift_exact by lia. f_equal. f_equal. lia.
  - rewrite <- Z.mul_assoc, <- Z.pow_add_r by lia. do 2 f_equal. lia.
Qed.

Lemma below_one_scaled : below_one * unit_scale = (2 ^ 53 - 1) * 2 ^ 2095.
Proof. vm_compute. reflexivity. Qed.

(** The largest sample times an integer [n] of [j] bits rounds to the
    binary64 value just below [n]. *)
Lemma largest_sample_times n j :
  0 <= j <= 53 -> 2 ^ (j - 1) < n <= 2 ^ j ->
  RN 1074 (below_one * (n * unit_scale)) = n * unit_scale - 2 ^ (j + 1021).
Proof.
  intros Hj Hn.
  destruct (Z.eq_dec j 0) as [J0|J0].
  { rewrite J0 in *. assert (n = 1) by (simpl in Hn; lia). subst n.
    vm_compute. reflexivity. }
  assert (Ph : 0 < 2 ^ (j - 1)) by (apply pow2_gt0; lia).
  assert (Pd : 0 < 2 ^ (53 - j)) by (apply pow2_gt0; lia).
  assert (PA : 0 < 2 ^ 2095) by (apply pow2_gt0; lia).
  assert (Ej : 2 ^ j = 2 * 2 ^ (j - 1)).
  { rewrite <- pow2_succ by lia. f_equal. lia. }
  assert (E53 : 2 ^ 53 = 2 * 2 ^ (j - 1) * 2 ^ (53 - j)).
  { rewrite <- Ej, <- (Z.pow_add_r 2 j (53 - j)) by lia. f_equal. lia. }
  assert (Ec : 2 ^ (j + 2095) = 2 * 2 ^ (j - 1) * 2 ^ 2095).
  { rewrite <- Ej. apply (Z.pow_add_r 2 j 2095); lia. }
  assert (Ec1 : 2 ^ (j + 2095 - 1) = 2 ^ (j - 1) * 2 ^ 2095).
  { replace (j + 2095 - 1) with ((j - 1) + 2095) by lia.
    apply (Z.pow_add_r 2 (j - 1) 2095); lia. }
  assert (Ez : below_one * (n * unit_scale)
               = (n * 2 ^ (53 - j) - 1) * 2 ^ (j + 2095)
                 + (2 ^ j - n) * 2 ^ 2095).
  { replace (below_one * (n * unit_scale))
      with (n * (below_one * unit_scale)) by ring.
    rewrite below_one_scaled, Ec, Ej, E53. ring. }
  assert (El : Z.log2 (n * (2 ^ 53 - 1) * 2 ^ 2095) = j + 52 + 2095).
  { rewrite log2_mul_pow2 by nia. f_equal.
    apply Z.log2_unique; [lia|].
    replace (Z.succ (j + 52)) with ((j - 1) + 54) by lia.
    replace (j + 52) with ((j - 1) + 53) by lia.
    rewrite (Z.pow_add_r 2 (j - 1) 54), (Z.pow_add_r 2 (j - 1) 53) by lia.
    assert (H52 : 2 ^ (j - 1) <= 2 ^ 52) by (apply pow2_le; lia).
    revert Hn H52 Ph. rewrite Ej. generalize (2 ^ (j - 1)). intros h Hn H52 Ph.
    change (2 ^ 53) with 9007199254740992.
    change (2 ^ 54) with 18014398509481984.
    change (2 ^ 52) with 4503599627370496 in H52. nia. }
  assert (Cx : cexp 1074 (below_one * (n * unit_scale)) = j + 2095).
  { unfold cexp.
    replace (below_one * (n * unit_scale))
      with (n * (2 ^ 53 - 1) * 2 ^ 2095)
      by (rewrite <- Z.mul_assoc, <- below_one_scaled; ring).
    rewrite El. lia. }
  unfold RN. rewrite Cx, Ez.
  rewrite rne_shift_down; [| lia |].
  - replace (j + 2095 - 1074) with (j + 1021) by lia.
    assert (Eu : 2 ^ (53 - j) * 2 ^ (j + 1021) = unit_scale).
    { unfold unit_scale. rewrite <- (Z.pow_add_r 2 (53 - j) (j + 1021)) by lia.
      f_equal. lia. }
    rewrite Z.mul_sub_distr_r, <- Z.mul_assoc, Eu. lia.
  - rewrite Ec1. split; [nia|].
    apply Z.mul_lt_mono_pos_r; lia.
Qed.

(** A sample times a positive integer [n] lies between 0 and the binary64
    value just below [n]. *)
Lemma sample_times_positive p b n j :
  unit_interval p = true -> scaled b = Some (n * unit_scale) ->
  0 <= j <= 53 -> 2 ^ (j - 1) < n <= 2 ^ j -> n < 2 ^ 53 ->
  within (p * b)%float 0 (n * unit_scale - 2 ^ (j + 1021)).
Proof.
  intros Hp Hb Hj Hn Hn53. destruct (within_unit p Hp) as (P & HP & BP).
  pose proof unit_scale_pos as Pu.
  assert (Ph : 0 <= 2 ^ (j - 1)) by (apply Z.pow_nonneg; lia).
  assert (Pg : 0 < 2 ^ (j + 1021)) by (apply pow2_gt0; lia).
  assert (Q : 0 <= P * (n * unit_scale) <= below_one * (n * unit_scale)).
  { split; [apply Z.mul_nonneg_nonneg; nia|].
    apply Z.mul_le_mono_nonneg_r; nia. }
  pose proof (RN_mono 1074 _ _ ltac:(lia) Q) as R.
  rewrite (largest_sample_times n j Hj Hn) in R.
  pose proof (RN_nonneg 1074 (P * (n * unit_scale)) ltac:(lia) ltac:(lia)) as R0.
  pose proof (integer_below_overflow n ltac:(lia)) as O.
  exists (SRN 1074 (P * (n * unit_scale))). split.
  - apply mul_scaled; try assumption.
    rewrite Z.abs_eq by lia. lia.
  - rewrite SRN_nonneg by lia. lia.
Qed.

(** For integral bounds [min <= 0 <= max] of at most 51 bits,
    [floor(p * (max + 1 - min) + min)] is an integer between [min] and
    [max]. *)
Theorem intRange_value_around_zero min max p m M :
  integer_value min = Some m -> integer_value max = Some M ->
  - 2 ^ 51 <= m <= 0 -> 0 <= M <= 2 ^ 51 ->
  unit_interval p = true ->
  exists z,
    integer_value (Math_floor (p * (max + 1 - min) + min)) = Some z /\
    m <= z <= M.
Proof.
  intros Im IM Hm HM Hp.
  pose proof (scaled_of_integer_value _ _ Im) as Sm.
  pose proof (scaled_of_integer_value _ _ IM) as SM.
  assert (S1 : scaled 1%float = Some (1 * unit_scale))
    by (rewrite scaled_1; f_equal; lia).
  assert (B51 : 2 ^ 53 = 4 * 2 ^ 51) by reflexivity.
  assert (P51 : 0 < 2 ^ 51) by reflexivity.
  pose proof (add_integers _ _ _ _ SM S1 ltac:(lia)) as Sa.
  pose proof (sub_integers _ _ _ _ Sa Sm ltac:(lia)) as Sn.
  set (n := M + 1 - m) in *.
  assert (N1 : 1 <= n) by (unfold n; lia).
  assert (N53 : n < 2 ^ 53) by (unfold n; lia).
  pose proof unit_scale_pos as Pu.
  assert (Hj : 0 <= Z.log2_up n <= 53).
  { split; [apply Z.log2_up_nonneg|]. apply Z.log2_up_le_pow2; lia. }
  assert (Hn : 2 ^ (Z.log2_up n - 1) < n <= 2 ^ Z.log2_up n).
  { destruct (Z.eq_dec n 1) as [One|More].
    - rewrite One. split; [reflexivity | discriminate].
    - apply (Z.log2_up_spec n). lia. }
  set (j := Z.log2_up n) in *.
  assert (Pg : 0 < 2 ^ (j + 1021)) by (apply pow2_gt0; lia).
  assert (Pd : 0 < 2 ^ (53 - j)) by (apply pow2_gt0; lia).
  assert (Eu : 2 ^ (53 - j) * 2 ^ (j + 1021) = unit_scale).
  { unfold unit_scale. rewrite <- (Z.pow_add_r 2 (53 - j) (j + 1021)) by lia.
    f_equal. lia. }
  assert (E53 : 2 ^ (53 - j) * 2 ^ j = 2 ^ 53).
  { rewrite <- (Z.pow_add_r 2 (53 - j) j) by lia. f_equal. lia. }
  destruct (sample_times_positive p _ n j Hp Sn Hj Hn N53) as (X & HX & BX).
  (* the binary64 value just below max + 1 *)
  set (T := ((M + 1) * 2 ^ (53 - j) - 1) * 2 ^ (j + 1021)).
  assert (ET : T = (M + 1) * unit_scale - 2 ^ (j + 1021)).
  { unfold T. rewrite Z.mul_sub_distr_r, <- Z.mul_assoc, Eu. lia. }
  assert (RT : RN 0 T = T).
  { apply RN_mantissa; [|lia]. split; [nia|].
    assert ((M + 1) * 2 ^ (53 - j) <= 2 ^ j * 2 ^ (53 - j))
      by (apply Z.mul_le_mono_nonneg_r; unfold n in Hn; lia).
    lia. }
  assert (T0 : 0 <= T) by (unfold T; nia).
  assert (Hu : 2 ^ (j + 1021) <= unit_scale) by (rewrite <- Eu; nia).
  assert (W : within (p * (max + 1 - min) + min)%float (m * unit_scale) T).
  { exists (SRN 0 (X + m * unit_scale)). split.
    - apply add_scaled; try assumption.
      eapply Z.le_lt_trans;
        [apply (RN_mono 0 _ ((2 ^ 53 - 1) * unit_scale)); [lia|] |].
      + split; [lia|].
        assert (Z.abs (X + m * unit_scale) <= n * unit_scale) by (unfold n in *; nia).
        nia.
      + rewrite RN_integer by (split; [discriminate | reflexivity]).
        apply integer_below_overflow. split; [discriminate | reflexivity].
    - split.
      + rewrite <- (SRN_integer m) at 1 by lia. apply SRN_mono; lia.
      + rewrite <- RT, <- (SRN_nonneg 0 T) by lia. apply SRN_mono; [lia|].
        rewrite ET. unfold n in BX. lia. }
  destruct (floor_integer _ _ _ m M W) as (z & I & _ & B).
  - apply Z.div_mul. lia.
  - rewrite ET.
    replace ((M + 1) * unit_scale - 2 ^ (j + 1021))
      with (M * unit_scale + (unit_scale - 2 ^ (j + 1021))) by ring.
    rewrite Z.div_add_l by lia. rewrite Z.div_small by lia. lia.
  - exists z. split; assumption.
Qed.

End Binary64.

Set Implicit Arguments.

(* ================================================================= *)
(** * The engine and the harness: lemmas *)

(** ** The monad and the loops *)

Lemma bind_ok {S A B : Type} (m : SE S A) (k : A -> SE S B) s a s' :
  m s = (Ok a, s') -> bind m k s = k a s'.
Proof. unfold bind; intros ->; reflexivity. Qed.

Lemma bind_throw {S A B : Type} (m : SE S A) (k : A -> SE S B) s e s' :
  m s = (Throw e, s') -> bind m k s = (Throw e, s').
Proof. unfold bind; intros ->; reflexivity. Qed.

Lemma for_from_index {S : Type} (step : SE S unit) n :
  forall i j s, for_from i n (fun _ => step) s = for_from j n (fun _ => step) s.
Proof.
  induction n as [|n IH]; intros i j s; simpl; [reflexivity|].
  unfold bind. destruct (step s) as [[[]|e] s1]; [apply IH | reflexivity].
Qed.

Lemma for_lt_succ {S : Type} (step : SE S unit) n s :
  for_lt (Datatypes.S n) (fun _ => step) s
  = bind step (fun _ => for_lt n (fun _ => step)) s.
Proof.
  unfold for_lt; simpl. unfold bind.
  destruct (step s) as [[[]|e] s1]; [apply for_from_index | reflexivity].
Qed.

Lemma for_lt_repetitions {S : Type} (step : SE S unit) n :
  forall s, Repetitions step n s (for_lt n (fun _ => step) s).
Proof.
  induction n as [|n IH]; intros s.
  - apply Rep_done.
  - rewrite for_lt_succ. unfold bind.
    destruct (step s) as [[[]|e] s1] eqn:E.
    + eapply Rep_pass; [exact E | apply IH].
    + eapply Rep_fail; exact E.
Qed.

Lemma Repetitions_functional {S : Type} (step : SE S unit) n :
  forall s r r', Repetitions step n s r -> Repetitions step n s r' -> r = r'.
Proof.
  induction n as [|n IH]; intros s r r' H H'.
  - inversion H; inversion H'; subst; reflexivity.
  - inversion H as [ | ? ? s1 ? E R | ? ? e s1 E ]; subst;
      inversion H' as [ | ? ? s1' ? E' R' | ? ? e' s1' E' ]; subst;
      rewrite E in E'; inversion E'; subst; try reflexivity.
    eapply IH; eassumption.
Qed.

Lemma generations_succ {U A : Type} (g : Fuzzer U A) n w :
  generations g (Datatypes.S n) w
  = (a <- generate g ;; rest <- generations g n ;; ret (a :: rest)) w.
Proof. reflexivity. Qed.

Lemma drawn_drawn {U : Type} n m (w : world U) :
  drawn n (drawn m w) = drawn (n + m) w.
Proof. unfold drawn; simpl. do 2 f_equal. lia. Qed.

Lemma drawn_zero {U : Type} (w : world U) : drawn 0 w = w.
Proof. destruct w as [[o c] h]; reflexivity. Qed.

Lemma generate_draws {U A : Type} (g : Fuzzer U A) (w : world U) :
  generate g w = generator g (upcoming w 0) (drawn 1 w).
Proof. reflexivity. Qed.

(** [n] rounds of a computation [m], the values collected in order. *)
Lemma rounds_length {S A : Type} (m : SE S A) n :
  forall s xs s',
    Array_map (fun _ => m) (repeat tt n) s = (Ok xs, s') -> List.length xs = n.
Proof.
  induction n as [|n IH]; simpl; intros s xs s' H.
  - inversion H; reflexivity.
  - unfold bind in H. destruct (m s) as [[x|e] s1]; [|discriminate].
    destruct (Array_map (fun _ => m) (repeat tt n) s1) as [[ys|e] s2] eqn:E;
      [|discriminate].
    inversion H; subst. simpl. f_equal. eapply IH; exact E.
Qed.

Lemma for_lt_ext {S : Type} (step step' : SE S unit) n :
  (forall s, step s = step' s) ->
  forall s, for_lt n (fun _ => step) s = for_lt n (fun _ => step') s.
Proof.
  intros E. induction n as [|n IH]; intros s; [reflexivity|].
  rewrite !for_lt_succ. unfold bind. rewrite E.
  destruct (step' s) as [[[]|e] s1]; [apply IH | reflexivity].
Qed.

Section Harness.

Variable U : Type.

(** The loop of the explained family: a round generates [x], then registers
    the unit [unit_of x]. *)
Lemma explained_loop {X : Type} (m : Gen U X)
    (unit_of : X -> js_string * Gen U unit) n :
  forall w units xs w',
    Array_map (fun _ => m) (repeat tt n) w = (Ok xs, w') ->
    for_lt n (fun _ => x <- lift m ;;
                       test (fst (unit_of x)) (snd (unit_of x))) (w, units)
    = (Ok tt, (w', units ++ List.map unit_of xs)).
Proof.
  induction n as [|n IH]; intros w units xs w' H.
  - simpl in H. inversion H; subst. simpl. rewrite app_nil_r. reflexivity.
  - rewrite for_lt_succ. simpl in H. unfold bind in H |- *. simpl.
    destruct (m w) as [[x|e] w1]; [|discriminate].
    destruct (Array_map (fun _ => m) (repeat tt n) w1) as [[ys|e] w2] eqn:E;
      [|discriminate].
    inversion H; subst. simpl.
    rewrite (IH _ _ _ _ E). rewrite <- app_assoc.
    destruct (unit_of x); reflexivity.
Qed.

End Harness.

(** ** Draws *)

Lemma upcoming_drawn {U : Type} (w : world U) k i :
  upcoming (drawn k w) i = upcoming w (i + k).
Proof. unfold upcoming, drawn; simpl. f_equal. lia. Qed.

Lemma Math_random_draws {U : Type} (w : world U) :
  Math_random w = (Ok (upcoming w 0), drawn 1 w).
Proof. reflexivity. Qed.

(** A step that draws one sample and returns [f] of it, run [n] times. *)
Lemma Array_map_draws {U B : Type} (step : Gen U B) (f : number -> B) :
  (forall w, step w = (Ok (f (upcoming w 0)), drawn 1 w)) ->
  forall n w,
    Array_map (fun _ => step) (repeat tt n) w
    = (Ok (List.map (fun i => f (upcoming w i)) (seq 0 n)), drawn n w).
Proof.
  intros Hstep. induction n as [|n IH]; intros w.
  - simpl. rewrite drawn_zero. reflexivity.
  - simpl repeat. simpl Array_map.
    rewrite (bind_ok _ _ _ (Hstep w)).
    rewrite (bind_ok _ _ _ (IH (drawn 1 w))).
    unfold ret. rewrite drawn_drawn. f_equal.
    + f_equal. simpl. f_equal.
      rewrite <- seq_shift, map_map. apply map_ext. intros i.
      rewrite upcoming_drawn. replace (i + 1)%nat with (Datatypes.S i) by lia.
      reflexivity.
    + f_equal. f_equal. lia.
Qed.

Lemma concat_singletons {A B : Type} (f : A -> B) (l : list A) :
  List.concat (List.map (fun x => [f x]) l) = List.map f l.
Proof. induction l as [|x l IH]; simpl; [reflexivity | rewrite IH; reflexivity]. Qed.

Lemma Array_fill_null_ok {S : Type} (length : number) (n : nat) (s : S) :
  integer_value length = Some (Z.of_nat n) -> (n < 100)%nat ->
  Array_fill_null length s = (Ok (repeat tt n), s).
Proof.
  intros I H. unfold Array_fill_null. rewrite I.
  destruct (Z.leb_spec 0 (Z.of_nat n)); [|lia].
  destruct (Z.ltb_spec (Z.of_nat n) 4294967296); [|lia].
  simpl. rewrite Nat2Z.id. reflexivity.
Qed.

Lemma cycle_fair (l : list number) :
  l <> [] -> forallb unit_interval l = true -> fair (cycle l).
Proof.
  intros N F n. simpl.
  rewrite forallb_forall in F. apply F. apply nth_In.
  apply Nat.mod_upper_bound. destruct l; [contradiction | discriminate].
Qed.

Lemma fair_upcoming {U : Type} (w : world U) i :
  fair (rand w) -> unit_interval (upcoming w i) = true.
Proof. intros F. apply F. Qed.

(* ================================================================= *)
(** ** The combinators *)

(** C9. [constant(v)] returns the value it was given, whatever the sample:
    one generation returns [v] and leaves the heap as it was (the value is
    handed over, nothing is copied or rebuilt), and so do any number of
    generations in a row. *)
Theorem constant_returns_its_value (U A : Type) (v : A) :
  (forall w : world U, generate (constant v) w = (Ok v, drawn 1 w)) /\
  (forall n (w : world U),
     generations (constant v) n w = (Ok (repeat v n), drawn n w)).
Proof.
  split; [reflexivity|].
  induction n as [|n IH]; intros w.
  - simpl. rewrite drawn_zero. reflexivity.
  - rewrite generations_succ.
    erewrite bind_ok with (s' := drawn 1 w) by reflexivity.
    erewrite bind_ok by apply IH.
    unfold ret. rewrite drawn_drawn. do 2 f_equal. lia.
Qed.

(** C2. A generation of [map(g, f)] generates [g]'s value, in that same
    generation, and returns [f] of it; a generation of [map2] .. [map8]
    generates the value of each fuzzer in argument order, first to last, each
    from the world the previous one left, and returns [func] of the values in
    that order. The sample the mapped fuzzer itself draws is discarded. *)
Theorem map_family_generates_in_argument_order (U : Type) :
  (forall A B (g : Fuzzer U A) (f : A -> B) (w : world U),
     generate (map g (fun x => ret (f x))) w
     = match generate g (drawn 1 w) with
       | (Ok x, w') => (Ok (f x), w')
       | (Throw e, w') => (Throw e, w')
       end) /\
  (forall A B (g : Fuzzer U A) (f : A -> Gen U B) (w : world U),
     generate (map g f) w = (x <- generate g ;; f x) (drawn 1 w)) /\
  (forall A B C (gA : Fuzzer U A) (gB : Fuzzer U B) (f : A -> B -> Gen U C) w,
     generate (map2 gA gB f) w
     = (a <- generate gA ;; b <- generate gB ;; f a b) (drawn 1 w)) /\
  (forall A B C D (gA : Fuzzer U A) (gB : Fuzzer U B) (gC : Fuzzer U C)
          (f : A -> B -> C -> Gen U D) w,
     generate (map3 gA gB gC f) w
     = (a <- generate gA ;; b <- generate gB ;; c <- generate gC ;;
        f a b c) (drawn 1 w)) /\
  (forall A B C D E (gA : Fuzzer U A) (gB : Fuzzer U B) (gC : Fuzzer U C)
          (gD : Fuzzer U D) (f : A -> B -> C -> D -> Gen U E) w,
     generate (map4 gA gB gC gD f) w
     = (a <- generate gA ;; b <- generate gB ;; c <- generate gC ;;
        d <- generate gD ;; f a b c d) (drawn 1 w)) /\
  (forall A B C D E F (gA : Fuzzer U A) (gB : Fuzzer U B) (gC : Fuzzer U C)
          (gD : Fuzzer U D) (gE : Fuzzer U E)
          (f : A -> B -> C -> D -> E -> Gen U F) w,
     generate (map5 gA gB gC gD gE f) w
     = (a <- generate gA ;; b <- generate gB ;; c <- generate gC ;;
        d <- generate gD ;; e <- generate gE ;; f a b c d e) (drawn 1 w)) /\
  (forall A B C D E F G (gA : Fuzzer U A) (gB : Fuzzer U B) (gC : Fuzzer U C)
          (gD : Fuzzer U D) (gE : Fuzzer U E) (gF : Fuzzer U F)
          (f : A -> B -> C -> D -> E -> F -> Gen U G) w,
     generate (map6 gA gB gC gD gE gF f) w
     = (a <- generate gA ;; b <- generate gB ;; c <- generate gC ;;
        d <- generate gD ;; e <- generate gE ;; x <- generate gF ;;
        f a b c d e x) (drawn 1 w)) /\
  (forall A B C D E F G H (gA : Fuzzer U A) (gB : Fuzzer U B)
          (gC : Fuzzer U C) (gD : Fuzzer U D) (gE : Fuzzer U E)
          (gF : Fuzzer U F) (gG : Fuzzer U G)
          (f : A -> B -> C -> D -> E -> F -> G -> Gen U H) w,
     generate (map7 gA gB gC gD gE gF gG f) w
     = (a <- generate gA ;; b <- generate gB ;; c <- generate gC ;;
        d <- generate gD ;; e <- generate gE ;; x <- generate gF ;;
        y <- generate gG ;; f a b c d e x y) (drawn 1 w)) /\
  (forall A B C D E F G H I (gA : Fuzzer U A) (gB : Fuzzer U B)
          (gC : Fuzzer U C) (gD : Fuzzer U D) (gE : Fuzzer U E)
          (gF : Fuzzer U F) (gG : Fuzzer U G) (gH : Fuzzer U H)
          (f : A -> B -> C -> D -> E -> F -> G -> H -> Gen U I) w,
     generate (map8 gA gB gC gD gE gF gG gH f) w
     = (a <- generate gA ;; b <- generate gB ;; c <- generate gC ;;
        d <- generate gD ;; e <- generate gE ;; x <- generate gF ;;
        y <- generate gG ;; z <- generate gH ;;
        f a b c d e x y z) (drawn 1 w)).
Proof.
  repeat split; intros; reflexivity.
Qed.

(* ================================================================= *)
(** ** The test harness adapter *)

(** C3. [fuzz], [fuzz2] and [fuzz3] draw nothing and register one unit, named
    by the description. Run in any world, the unit's body is 100 repetitions
    of: generate one value per fuzzer, in argument order, and call the check
    function on them; a failure of the check function ends the body with that
    failure, the remaining repetitions not run. *)
Theorem fuzz_registers_one_batched_unit (U : Type) :
  TEST_PASSES = 100 /\
  (forall A (g : Fuzzer U A) desc (f : A -> Gen U unit) (w : world U) units,
     exists body,
       fuzz g desc f (w, units) = (Ok tt, (w, units ++ [(desc, body)])) /\
       forall w0,
         Repetitions (a <- generate g ;; f a) 100 w0 (body w0)) /\
  (forall A B (gA : Fuzzer U A) (gB : Fuzzer U B) desc
          (f : A -> B -> Gen U unit) (w : world U) units,
     exists body,
       fuzz2 gA gB desc f (w, units) = (Ok tt, (w, units ++ [(desc, body)])) /\
       forall w0,
         Repetitions (a <- generate gA ;; b <- generate gB ;; f a b)
                     100 w0 (body w0)) /\
  (forall A B C (gA : Fuzzer U A) (gB : Fuzzer U B) (gC : Fuzzer U C) desc
          (f : A -> B -> C -> Gen U unit) (w : world U) units,
     exists body,
       fuzz3 gA gB gC desc f (w, units)
       = (Ok tt, (w, units ++ [(desc, body)])) /\
       forall w0,
         Repetitions (a <- generate gA ;; b <- generate gB ;;
                      c <- generate gC ;; f a b c)
                     100 w0 (body w0)).
Proof.
  split; [reflexivity|].
  repeat split; intros; eexists; (split; [reflexivity|]);
    intros w0; apply for_lt_repetitions.
Qed.

(** C4. When the 100 rounds of generation succeed, [fuzzExplained] (and
    [fuzz2Explained], [fuzz3Explained]) registers 100 units, one per round,
    in order. The values of a round are generated while the harness function
    runs, before its unit is registered: the world it leaves is the one after
    all the generations. The unit's name interpolates these values and its
    body is the check function called once on these same values. *)
Theorem explained_registers_one_unit_per_round (U : Type) :
  (forall A (SA : ToString A) (g : Fuzzer U A) desc (f : A -> Gen U unit)
          (w : world U) units values w',
     generations g TEST_PASSES w = (Ok values, w') ->
     List.length values = 100 /\
     fuzzExplained g desc f (w, units)
     = (Ok tt, (w', units ++ List.map (fun a => (name1 desc a, f a)) values))) /\
  (forall A B (SA : ToString A) (SB : ToString B) (gA : Fuzzer U A)
          (gB : Fuzzer U B) desc (f : A -> B -> Gen U unit)
          (w : world U) units values w',
     generations2 gA gB TEST_PASSES w = (Ok values, w') ->
     List.length values = 100 /\
     fuzz2Explained gA gB desc f (w, units)
     = (Ok tt, (w', units ++ List.map (fun '(a, b) =>
                                         (name2 desc a b, f a b)) values))) /\
  (forall A B C (SA : ToString A) (SB : ToString B) (SC : ToString C)
          (gA : Fuzzer U A) (gB : Fuzzer U B) (gC : Fuzzer U C) desc
          (f : A -> B -> C -> Gen U unit) (w : world U) units values w',
     generations3 gA gB gC TEST_PASSES w = (Ok values, w') ->
     List.length values = 100 /\
     fuzz3Explained gA gB gC desc f (w, units)
     = (Ok tt, (w', units ++ List.map (fun '(a, b, c) =>
                                         (name3 desc a b c, f a b c)) values))).
Proof.
  repeat split; intros; try (eapply rounds_length; eassumption).
  - unfold fuzzExplained.
    apply (explained_loop (generate g) (fun a => (name1 desc a, f a)) _ _ units H).
  - unfold fuzz2Explained.
    etransitivity;
      [| apply (explained_loop _ (fun '(a, b) => (name2 desc a b, f a b))
                  _ _ units H) ].
    apply for_lt_ext. intros [w1 units1]. unfold bind, lift, ret; simpl.
    destruct (generate gA w1) as [[a|e] w2]; [|reflexivity].
    destruct (generate gB w2) as [[b|e] w3]; reflexivity.
  - unfold fuzz3Explained.
    etransitivity;
      [| apply (explained_loop _ (fun '(a, b, c) => (name3 desc a b c, f a b c))
                  _ _ units H) ].
    apply for_lt_ext. intros [w1 units1]. unfold bind, lift, ret; simpl.
    destruct (generate gA w1) as [[a|e] w2]; [|reflexivity].
    destruct (generate gB w2) as [[b|e] w3]; [|reflexivity].
    destruct (generate gC w3) as [[c|e] w4]; reflexivity.
Qed.

(* ================================================================= *)
(** ** The primitives *)

Lemma intRange_generate (U : Type) (min max : number) (w : world U) :
  generate (intRange min max) w
  = (Ok (Math_floor (upcoming w 0 * (max + 1 - min) + min)%float), drawn 1 w).
Proof. reflexivity. Qed.

(** C8. For samples in [[0, 1)], a generation of [string] draws the length
    sample [p], builds a string of [floor(100 * p)] characters, fewer than
    100, and draws one more sample per character: the character of slot [i]
    is the code [floor(q * (126 + 1 - 32) + 32)] of its own sample [q], and
    every code is one of 32 .. 126. *)
Theorem string_is_printable_ascii (U : Type) (w : world U) :
  fair (rand w) ->
  exists n : nat,
    (n < 100)%nat /\
    integer_value (Math_floor (100 * upcoming w 0)%float) = Some (Z.of_nat n) /\
    let code i :=
      ToUint16 (Math_floor (upcoming w (Datatypes.S i) * (126 + 1 - 32) + 32)%float) in
    generate string w = (Ok (List.map code (seq 0 n)), drawn (Datatypes.S n) w) /\
    List.length (List.map code (seq 0 n)) = n /\
    Forall (fun c => (32 <= c <= 126)%Z) (List.map code (seq 0 n)).
Proof.
  intros F.
  destruct (hundredfold_floor (upcoming w 0) (fair_upcoming w 0 F))
    as (n & Hn & I).
  exists n. split; [exact Hn|]. split; [exact I|]. cbv zeta.
  split; [|split].
  - unfold generate. rewrite (bind_ok _ _ _ (Math_random_draws w)).
    unfold string, generator.
    rewrite (bind_ok _ _ _ (Array_fill_null_ok _ _ I Hn)).
    erewrite bind_ok.
    2:{ apply (Array_map_draws
                 (char <- generate (intRange 32 126) ;;
                  ret (String_fromCharCode char))
                 (fun q => [ToUint16 (Math_floor (q * (126 + 1 - 32) + 32)%float)])).
        intros w'. reflexivity. }
    unfold ret, join. rewrite drawn_drawn. f_equal.
    + f_equal.
      etransitivity;
        [exact (concat_singletons
                  (fun i => ToUint16 (Math_floor (upcoming (drawn 1 w) i
                                                  * (126 + 1 - 32) + 32)%float))
                  (seq 0 n))|].
      apply map_ext. intros i. rewrite upcoming_drawn.
      replace (i + 1)%nat with (Datatypes.S i) by lia. reflexivity.
    + f_equal. f_equal. lia.
  - rewrite length_map, length_seq. reflexivity.
  - apply Forall_map, Forall_forall. intros i _.
    destruct (printable_code (upcoming w (Datatypes.S i))
                (fair_upcoming w (Datatypes.S i) F)) as (z & B & _ & E).
    rewrite E. exact B.
Qed.

Section Exponentiation.

(** What the engine needs of [**]: a base in [[0, 1)] raised to the power 30
    stays in [[0, 1)], a base below 0.5 gives at most [2^-30], and
    [0 ** 30] is 0 (the last one ECMAScript fixes exactly). *)
Variable exponentiate : number -> number -> number.

Hypothesis exponentiate_unit :
  forall x, unit_interval x = true -> unit_interval (exponentiate x 30) = true.

(** C7. For samples in [[0, 1)], a generation of [array(g)] draws the length
    sample [p] and then runs [floor(100 * p ** 30)] generations of [g], fewer
    than 100, each from the world the previous one left; what it returns has
    that many elements. The sample 0 gives the empty array. *)
Theorem array_length_and_elements (U A : Type) (g : Fuzzer U A) (w : world U) :
  exponentiate 0 30 = 0%float ->
  fair (rand w) ->
  (exists n : nat,
     (n < 100)%nat /\
     integer_value (Math_floor (100 * exponentiate (upcoming w 0) 30)%float)
     = Some (Z.of_nat n) /\
     generate (array exponentiate g) w = generations g n (drawn 1 w) /\
     forall values w',
       generate (array exponentiate g) w = (Ok values, w') ->
       List.length values = n) /\
  (upcoming w 0 = 0%float ->
   generate (array exponentiate g) w = (Ok [], drawn 1 w)).
Proof.
  intros Hzero F.
  assert (G : forall n : nat,
             (n < 100)%nat ->
             integer_value (Math_floor (100 * exponentiate (upcoming w 0) 30)%float)
             = Some (Z.of_nat n) ->
             generate (array exponentiate g) w = generations g n (drawn 1 w)).
  { intros n Hn I. unfold generate.
    rewrite (bind_ok _ _ _ (Math_random_draws w)).
    unfold array, generator.
    rewrite (bind_ok _ _ _ (Array_fill_null_ok _ _ I Hn)). reflexivity. }
  split.
  - destruct (hundredfold_floor _ (exponentiate_unit _ (fair_upcoming w 0 F)))
      as (n & Hn & I).
    exists n. split; [exact Hn|]. split; [exact I|]. split; [exact (G n Hn I)|].
    intros values w' E. rewrite (G n Hn I) in E.
    eapply rounds_length; exact E.
  - intros Z0. apply (G 0%nat); [lia|]. rewrite Z0, Hzero. reflexivity.
Qed.

Lemma int_generate (U : Type) (w : world U) :
  generate (int exponentiate) w
  = (Ok (if (upcoming w 0 <? 0.5)%float
         then Math_ceil (exponentiate (upcoming w 0) 30 * MIN_SAFE_INTEGER)%float
         else Math_floor (exponentiate (upcoming w 0) 30 * MAX_SAFE_INTEGER)%float),
     drawn 1 w).
Proof.
  unfold generate. rewrite (bind_ok _ _ _ (Math_random_draws w)).
  unfold int, generator. destruct (upcoming w 0 <? 0.5)%float; reflexivity.
Qed.

(** C6. For samples in [[0, 1)], a generation of [int] returns
    [ceil(w * MIN_SAFE_INTEGER)] when its sample [p] is below 0.5 and
    [floor(w * MAX_SAFE_INTEGER)] otherwise, where [w = p ** 30], and a
    generation of [float] returns the sum of an [int] generation and its own
    sample; both results are finite: neither NaN nor an infinity. *)
Theorem int_and_float_are_finite (U : Type) (w : world U) :
  fair (rand w) ->
  let int_of p :=
    if (p <? 0.5)%float
    then Math_ceil (exponentiate p 30 * MIN_SAFE_INTEGER)%float
    else Math_floor (exponentiate p 30 * MAX_SAFE_INTEGER)%float in
  (generate (int exponentiate) w = (Ok (int_of (upcoming w 0)), drawn 1 w) /\
   is_finite (int_of (upcoming w 0)) = true) /\
  (generate (float exponentiate) w
   = (Ok (int_of (upcoming w 1) + upcoming w 0)%float, drawn 2 w) /\
   is_finite (int_of (upcoming w 1) + upcoming w 0)%float = true).
Proof.
  intros F int_of.
  assert (B : forall p, unit_interval p = true ->
                exists z, scaled (int_of p) = Some (z * unit_scale)%Z /\
                          (-9007199254740991 <= z <= 9007199254740991)%Z).
  { intros p Hp. pose proof (within_unit _ (exponentiate_unit p Hp)) as W.
    unfold int_of. destruct (p <? 0.5)%float.
    - destruct (int_negative_branch _ W) as (z & E & Bz).
      exists z. split; [exact E | lia].
    - destruct (int_positive_branch _ W) as (z & E & Bz).
      exists z. split; [exact E | lia]. }
  split; split.
  - apply int_generate.
  - destruct (B _ (fair_upcoming w 0 F)) as (z & E & _).
    eapply is_finite_scaled; exact E.
  - unfold generate at 1. rewrite (bind_ok _ _ _ (Math_random_draws w)).
    unfold float, generator.
    assert (I : generate (int exponentiate) (drawn 1 w)
                = (Ok (int_of (upcoming w 1)), drawn 2 w)).
    { rewrite int_generate, drawn_drawn.
      change (upcoming (drawn 1 w) 0) with (upcoming w 1). reflexivity. }
    rewrite (bind_ok _ _ _ I). reflexivity.
  - destruct (B _ (fair_upcoming w 1 F)) as (z & E & Bz).
    eapply integer_plus_sample; [exact E | exact Bz | apply fair_upcoming, F].
Qed.

Hypothesis exponentiate_small :
  forall x, unit_interval x = true -> (x <? 0.5)%float = true ->
            (exponentiate x 30 <=? 0x1p-30)%float = true.

(** C10. For samples in [[0, 1)], every value [int] generates is at least
    [ceil(2^-30 * MIN_SAFE_INTEGER)], which is -8388607, and at most
    [MAX_SAFE_INTEGER]: the branch of the negative values is taken for
    samples below 0.5 only, where the weight is at most [2^-30]. *)
Theorem int_is_at_least_minus_8388607 (U : Type) (w : world U) :
  fair (rand w) ->
  Math_ceil (0x1p-30 * MIN_SAFE_INTEGER)%float = (-8388607)%float /\
  exists v,
    generate (int exponentiate) w = (Ok v, drawn 1 w) /\
    (Math_ceil (0x1p-30 * MIN_SAFE_INTEGER) <=? v)%float = true /\
    (v <=? MAX_SAFE_INTEGER)%float = true.
Proof.
  intros F. split; [reflexivity|].
  pose proof (fair_upcoming w 0 F) as Hp.
  pose proof (within_unit _ (exponentiate_unit _ Hp)) as W.
  rewrite int_generate.
  assert (L : scaled (Math_ceil (0x1p-30 * MIN_SAFE_INTEGER)%float)
              = Some (-8388607 * unit_scale)%Z) by (vm_compute; reflexivity).
  pose proof unit_scale_pos as Pu.
  destruct (upcoming w 0 <? 0.5)%float eqn:Half.
  - pose proof (within_leb _ _ _ _ _ W scaled_half_power
                  (@exponentiate_small (upcoming w 0) Hp Half)) as W'.
    destruct (int_negative_branch_small _
                (within_weaken _ _ _ _ _ W' (Z.le_refl 0) (Z.le_min_r _ _)))
      as (z & E & Bz).
    eexists. split; [reflexivity|]. split.
    + rewrite (leb_scaled _ _ _ _ L E). apply Z.leb_le. nia.
    + rewrite (leb_scaled _ _ _ _ E scaled_MAX). apply Z.leb_le. nia.
  - destruct (int_positive_branch _ W) as (z & E & Bz).
    eexists. split; [reflexivity|]. split.
    + rewrite (leb_scaled _ _ _ _ L E). apply Z.leb_le. nia.
    + rewrite (leb_scaled _ _ _ _ E scaled_MAX). apply Z.leb_le. nia.
Qed.

End Exponentiation.

(* ================================================================= *)
(** ** Runs on a concrete source *)

(** C1, on the code: [andThen(intRange(0, 9), n => constant(n))] draws when
    it is called (the cursor moves from 0 to 1, the sample 0.125 gives 1), and
    the fuzzer it returns is [constant(1)]: two generations return 1 and 1.
    [intRange(0, 9)] generated twice from the same world returns 5 and 7. *)
Theorem andThen_samples_when_called :
  match andThen (intRange 0 9) (fun n => ret (constant n)) quarters with
  | (Ok made, w1) =>
      cursor (rand w1) = 1 /\
      fst ((a <- generate made ;; b <- generate made ;; ret (a, b)) w1)
      = Ok (1, 1)%float /\
      fst ((a <- generate (intRange 0 9) ;; b <- generate (intRange 0 9) ;;
            ret (a, b)) w1)
      = Ok (5, 7)%float
  | (Throw _, _) => False
  end.
Proof. vm_compute. repeat split; reflexivity. Qed.

(** What [andThen] does for every fuzzer: the value is generated once, by the
    call, and the fuzzer returned for [n => constant(n)] returns that one
    value at every generation. *)
Lemma andThen_constant_is_frozen (U A : Type) (g : Fuzzer U A) (w : world U) :
  match andThen g (fun a => ret (constant a)) w with
  | (Ok made, w1) =>
      exists a, generate g w = (Ok a, w1) /\
                forall w2, generate made w2 = (Ok a, drawn 1 w2)
  | (Throw e, w1) => generate g w = (Throw e, w1)
  end.
Proof.
  unfold andThen, bind. destruct (generate g w) as [[a|e] w1]; simpl; [|reflexivity].
  exists a. split; reflexivity.
Qed.

(** C5, on the code: the sample [1 - 2^-52] is below 1, and
    [0.9999999999999998 * (4 + 1 - 4) + 4] rounds to 5 in binary64, so
    [intRange(4, 4)] returns 5. *)
Theorem intRange_returns_max_plus_one :
  unit_interval 0x1.ffffffffffffep-1 = true /\
  generate (intRange 4 4) (mkWorld (cycle [0x1.ffffffffffffep-1]%float) tt)
  = (Ok 5%float, drawn 1 (mkWorld (cycle [0x1.ffffffffffffep-1]%float) tt)) /\
  (5 <=? 4)%float = false.
Proof. repeat split. Qed.

(** The same with a sample of 0.75 and bounds above [2^53]:
    [intRange(2^53, 2^53 + 2)] returns [2^53 + 4]. *)
Lemma intRange_large_bounds :
  generate (intRange 9007199254740992 9007199254740994)
           (mkWorld (cycle [0.75]%float) tt)
  = (Ok 9007199254740996%float, drawn 1 (mkWorld (cycle [0.75]%float) tt)).
Proof. reflexivity. Qed.

(** The batched unit of [fuzz], taken from the registry and run: a check
    function that counts its calls is called 100 times, and 100 samples are
    drawn. *)
Lemma fuzz_body_runs_100_times :
  match fuzz (intRange 0 9) (js "counts") count_call
             (mkWorld (cycle [0.125; 0.5]%float) 0, []) with
  | (Ok tt, (w, [(name, body)])) =>
      name = js "counts" /\ cursor (rand w) = 0 /\
      body w = (Ok tt, mkWorld (mkSource (oracle (rand w)) 100) 100)
  | _ => False
  end.
Proof. vm_compute. repeat split; reflexivity. Qed.

(** A check function that fails on 5: the second repetition generates 5, and
    the body ends with the failure after two draws and one counted call. *)
Lemma fuzz_body_stops_at_first_failure :
  match fuzz (intRange 0 9) (js "rejects 5") (reject (fun x => x =? 5)%float)
             (mkWorld (cycle [0.125; 0.5]%float) 0, []) with
  | (Ok tt, (w, [(name, body)])) =>
      body w = (Throw (Raised 0), mkWorld (mkSource (oracle (rand w)) 2) 1)
  | _ => False
  end.
Proof. vm_compute. reflexivity. Qed.

(** [fuzzExplained] on the [string] fuzzer in the world [thirds]: every round
    draws 0.03125 for the length (3) and 0.5, 0.75, 0.25 for the characters. *)
Lemma explained_registers_one_unit_per_round_witness :
  generations string TEST_PASSES thirds
  = (Ok (repeat (js "Og7") 100), drawn 400 thirds) /\
  List.length (repeat (js "Og7") 100) = 100 /\
  fuzzExplained string (js "echo") (fun _ => ret tt) (thirds, [])
  = (Ok tt, (drawn 400 thirds,
             [] ++ List.map (fun a => (name1 (js "echo") a, ret tt))
                            (repeat (js "Og7") 100))).
Proof.
  assert (H : generations string TEST_PASSES thirds
              = (Ok (repeat (js "Og7") 100), drawn 400 thirds))
    by (vm_compute; reflexivity).
  split; [exact H|].
  exact (proj1 (explained_registers_one_unit_per_round unit)
           js_string _ string (js "echo") (fun _ => ret tt) thirds [] _ _ H).
Defined.

(* ================================================================= *)
(** ** The primitives on the sample worlds *)

Lemma quarters_fair : fair (rand quarters).
Proof. apply cycle_fair; [discriminate | reflexivity]. Qed.

Lemma thirds_fair : fair (rand thirds).
Proof. apply cycle_fair; [discriminate | reflexivity]. Qed.

Lemma brink_fair : fair (rand brink).
Proof. apply cycle_fair; [discriminate | reflexivity]. Qed.

(** In [thirds], [string] generates "Og7" from four samples. *)
Lemma string_in_thirds :
  generate string thirds = (Ok (js "Og7"), drawn 4 thirds).
Proof. vm_compute. reflexivity. Qed.

Lemma string_is_printable_ascii_witness :
  fair (rand thirds) /\
  exists n : nat,
    (n < 100)%nat /\
    integer_value (Math_floor (100 * upcoming thirds 0)%float)
    = Some (Z.of_nat n) /\
    let code i :=
      ToUint16 (Math_floor (upcoming thirds (Datatypes.S i)
                            * (126 + 1 - 32) + 32)%float) in
    generate string thirds
    = (Ok (List.map code (seq 0 n)), drawn (Datatypes.S n) thirds) /\
    List.length (List.map code (seq 0 n)) = n /\
    Forall (fun c => (32 <= c <= 126)%Z) (List.map code (seq 0 n)).
Proof.
  split; [exact thirds_fair|].
  exact (string_is_printable_ascii thirds thirds_fair).
Defined.

(** With [power_by_products] for [**]: in [quarters], [array(intRange(0, 9))]
    is empty (0.125 ** 30 is far below 0.01); in [brink] it has 99
    elements. *)
Lemma array_in_quarters :
  generate (array power_by_products (intRange 0 9)) quarters
  = (Ok [], drawn 1 quarters).
Proof. vm_compute. reflexivity. Qed.

Lemma array_in_brink :
  match generate (array power_by_products (intRange 0 9)) brink with
  | (Ok values, w) => List.length values = 99 /\ cursor (rand w) = 100
  | (Throw _, _) => False
  end.
Proof. vm_compute. split; reflexivity. Qed.

Lemma array_length_and_elements_witness :
  fair (rand quarters) /\
  (exists n : nat,
     (n < 100)%nat /\
     integer_value
       (Math_floor (100 * power_by_products (upcoming quarters 0) 30)%float)
     = Some (Z.of_nat n) /\
     generate (array power_by_products (intRange 0 9)) quarters
     = generations (intRange 0 9) n (drawn 1 quarters) /\
     forall values w',
       generate (array power_by_products (intRange 0 9)) quarters
       = (Ok values, w') ->
       List.length values = n) /\
  (upcoming quarters 0 = 0%float ->
   generate (array power_by_products (intRange 0 9)) quarters
   = (Ok [], drawn 1 quarters)).
Proof.
  split; [exact quarters_fair|].
  exact (array_length_and_elements power_by_products
           power_by_products_unit (intRange 0 9)
           quarters power_by_products_zero quarters_fair).
Defined.

(** In [quarters], [int] returns [-0] (the sample 0.125 is below 0.5 and
    [ceil] of a small negative number is [-0]) and [float] returns
    [0.5 ** 30 * MAX_SAFE_INTEGER], floored, plus 0.125. *)
Lemma int_in_quarters :
  generate (int power_by_products) quarters = (Ok (-0)%float, drawn 1 quarters).
Proof. vm_compute. reflexivity. Qed.

Lemma float_in_quarters :
  generate (float power_by_products) quarters
  = (Ok 8388607.125%float, drawn 2 quarters).
Proof. vm_compute. reflexivity. Qed.

Lemma int_and_float_are_finite_witness :
  fair (rand quarters) /\
  let int_of p :=
    if (p <? 0.5)%float
    then Math_ceil (power_by_products p 30 * MIN_SAFE_INTEGER)%float
    else Math_floor (power_by_products p 30 * MAX_SAFE_INTEGER)%float in
  (generate (int power_by_products) quarters
   = (Ok (int_of (upcoming quarters 0)), drawn 1 quarters) /\
   is_finite (int_of (upcoming quarters 0)) = true) /\
  (generate (float power_by_products) quarters
   = (Ok (int_of (upcoming quarters 1) + upcoming quarters 0)%float,
      drawn 2 quarters) /\
   is_finite (int_of (upcoming quarters 1) + upcoming quarters 0)%float = true).
Proof.
  split; [exact quarters_fair|].
  exact (int_and_float_are_finite power_by_products power_by_products_unit
           quarters quarters_fair).
Defined.

(** The positive branch reaches up to near [MAX_SAFE_INTEGER]: in [brink],
    [int] returns 9007199254740961, above [2^53 - 32]. *)
Lemma int_in_brink :
  generate (int power_by_products) brink
  = (Ok 9007199254740961%float, drawn 1 brink).
Proof. vm_compute. reflexivity. Qed.

Lemma int_is_at_least_minus_8388607_witness :
  fair (rand quarters) /\
  Math_ceil (0x1p-30 * MIN_SAFE_INTEGER)%float = (-8388607)%float /\
  exists v,
    generate (int power_by_products) quarters = (Ok v, drawn 1 quarters) /\
    (Math_ceil (0x1p-30 * MIN_SAFE_INTEGER) <=? v)%float = true /\
    (v <=? MAX_SAFE_INTEGER)%float = true.
Proof.
  split; [exact quarters_fair|].
  exact (int_is_at_least_minus_8388607 power_by_products
           power_by_products_unit power_by_products_half quarters
           quarters_fair).
Defined.

(* ================================================================= *)
(** * Further properties of the engine *)

(** ** [intRange] for integral bounds in either order *)

(** For integral bounds of at most 51 bits and samples in [[0, 1)], a
    generation of [intRange(min, max)] returns an integer that lies between
    [min] and [max + 1], whichever of the two is the smaller: reversed bounds
    raise nothing, they give a value between [max + 1] and [min]. *)
Theorem intRange_between_min_and_max_plus_one
    (U : Type) (min max : number) (m M : Z) (w : world U) :
  integer_value min = Some m -> integer_value max = Some M ->
  (Z.abs m <= 2 ^ 51)%Z -> (Z.abs M <= 2 ^ 51)%Z ->
  fair (rand w) ->
  exists v z,
    generate (intRange min max) w = (Ok v, drawn 1 w) /\
    integer_value v = Some z /\
    (Z.min m (M + 1) <= z <= Z.max m (M + 1))%Z.
Proof.
  intros Im IM Hm HM F.
  destruct (intRange_value_between min max (upcoming w 0) m M Im IM Hm HM
              (fair_upcoming w 0 F)) as (z & I & B).
  eexists. exists z. split; [apply intRange_generate|]. split; assumption.
Qed.

Lemma intRange_between_min_and_max_plus_one_witness :
  integer_value 5%float = Some 5%Z /\ integer_value 3%float = Some 3%Z /\
  (Z.abs 5 <= 2 ^ 51)%Z /\ (Z.abs 3 <= 2 ^ 51)%Z /\ fair (rand quarters) /\
  exists v z,
    generate (intRange 5 3) quarters = (Ok v, drawn 1 quarters) /\
    integer_value v = Some z /\
    (Z.min 5 (3 + 1) <= z <= Z.max 5 (3 + 1))%Z.
Proof.
  assert (I5 : integer_value 5%float = Some 5%Z) by reflexivity.
  assert (I3 : integer_value 3%float = Some 3%Z) by reflexivity.
  assert (B5 : (Z.abs 5 <= 2 ^ 51)%Z) by (vm_compute; discriminate).
  assert (B3 : (Z.abs 3 <= 2 ^ 51)%Z) by (vm_compute; discriminate).
  repeat (split; [assumption || exact quarters_fair|]).
  exact (intRange_between_min_and_max_plus_one 5 3 quarters I5 I3 B5 B3
           quarters_fair).
Defined.

(** ** [intRange] for a range that contains 0 *)

(** For integral bounds [min <= 0 <= max] of at most 51 bits and samples in
    [[0, 1)], a generation of [intRange(min, max)] returns an integer from
    [min] to [max], both included: the value [max + 1] is never returned when
    0 is in the range. *)
Theorem intRange_is_inclusive_around_zero
    (U : Type) (min max : number) (m M : Z) (w : world U) :
  integer_value min = Some m -> integer_value max = Some M ->
  (- 2 ^ 51 <= m <= 0)%Z -> (0 <= M <= 2 ^ 51)%Z ->
  fair (rand w) ->
  exists v z,
    generate (intRange min max) w = (Ok v, drawn 1 w) /\
    integer_value v = Some z /\
    (m <= z <= M)%Z.
Proof.
  intros Im IM Hm HM F.
  destruct (intRange_value_around_zero min max (upcoming w 0) m M Im IM Hm HM
              (fair_upcoming w 0 F)) as (z & I & B).
  eexists. exists z. split; [apply intRange_generate|]. split; assumption.
Qed.

Lemma intRange_is_inclusive_around_zero_witness :
  integer_value (-3)%float = Some (-3)%Z /\ integer_value 9%float = Some 9%Z /\
  (- 2 ^ 51 <= -3 <= 0)%Z /\ (0 <= 9 <= 2 ^ 51)%Z /\ fair (rand brink) /\
  exists v z,
    generate (intRange (-3) 9) brink = (Ok v, drawn 1 brink) /\
    integer_value v = Some z /\
    (-3 <= z <= 9)%Z.
Proof.
  assert (Im : integer_value (-3)%float = Some (-3)%Z) by reflexivity.
  assert (IM : integer_value 9%float = Some 9%Z) by reflexivity.
  assert (Bm : (- 2 ^ 51 <= -3 <= 0)%Z) by (split; vm_compute; discriminate).
  assert (BM : (0 <= 9 <= 2 ^ 51)%Z) by (split; vm_compute; discriminate).
  repeat (split; [assumption || exact brink_fair|]).
  exact (intRange_is_inclusive_around_zero (-3) 9 brink Im IM Bm BM
           brink_fair).
Defined.

(** ** [map]: identity and composition *)

(** Mapping the identity over [g] generates what [g] generates, after one
    discarded sample, and mapping twice is mapping the composition, again
    after one discarded sample: the functor laws hold on the values but not on
    the number of samples drawn. *)
Theorem map_identity_and_composition (U A B C : Type) (g : Fuzzer U A)
    (f : A -> Gen U B) (h : B -> Gen U C) (w : world U) :
  generate (map g (fun x => ret x)) w = generate g (drawn 1 w) /\
  generate (map (map g f) h) w
  = generate (map g (fun x => y <- f x ;; h y)) (drawn 1 w).
Proof.
  split.
  - change (generate (map g (fun x => ret x)) w)
      with (bind (generate g) (fun x => ret x) (drawn 1 w)).
    unfold bind, ret. destruct (generate g (drawn 1 w)) as [[x|e] w']; reflexivity.
  - change (generate (map (map g f) h) w)
      with (bind (bind (generate g) f) h (drawn 1 (drawn 1 w))).
    change (generate (map g (fun x => y <- f x ;; h y)) (drawn 1 w))
      with (bind (generate g) (fun x => bind (f x) h) (drawn 1 (drawn 1 w))).
    unfold bind. destruct (generate g (drawn 1 (drawn 1 w))) as [[x|e] w'];
      reflexivity.
Qed.

(** ** Failures in [map2] *)

(** A generation of [map2(gA, gB, func)] ends with the first failure: when
    [gA] fails, [gB] generates nothing and [func] is not called; when [gB]
    fails, [func] is not called. The failure and the world are the ones the
    failing generation left. *)
Theorem map2_stops_at_first_failure (U A B C : Type) (gA : Fuzzer U A)
    (gB : Fuzzer U B) (func : A -> B -> Gen U C) (w : world U) :
  (forall e w1,
     generate gA (drawn 1 w) = (Throw e, w1) ->
     generate (map2 gA gB func) w = (Throw e, w1)) /\
  (forall a w1 e w2,
     generate gA (drawn 1 w) = (Ok a, w1) ->
     generate gB w1 = (Throw e, w2) ->
     generate (map2 gA gB func) w = (Throw e, w2)).
Proof.
  split.
  - intros e w1 HA.
    change (generate (map2 gA gB func) w)
      with ((a <- generate gA ;; b <- generate gB ;; func a b) (drawn 1 w)).
    apply (bind_throw _ _ _ HA).
  - intros a w1 e w2 HA HB.
    change (generate (map2 gA gB func) w)
      with ((a <- generate gA ;; b <- generate gB ;; func a b) (drawn 1 w)).
    rewrite (bind_ok _ _ _ HA). apply (bind_throw _ _ _ HB).
Qed.

Lemma map2_stops_at_first_failure_witness :
  (generate unless_five (drawn 1 (drawn 1 stutter))
   = (Throw (Raised 1), drawn 4 stutter) /\
   generate (map2 unless_five unless_five (fun a b => ret (a ++ b)))
            (drawn 1 stutter)
   = (Throw (Raised 1), drawn 4 stutter)) /\
  (generate unless_five (drawn 1 stutter) = (Ok (js "one"), drawn 3 stutter) /\
   generate unless_five (drawn 3 stutter) = (Throw (Raised 1), drawn 5 stutter) /\
   generate (map2 unless_five unless_five (fun a b => ret (a ++ b))) stutter
   = (Throw (Raised 1), drawn 5 stutter)).
Proof.
  assert (H1 : generate unless_five (drawn 1 (drawn 1 stutter))
               = (Throw (Raised 1), drawn 4 stutter)) by (vm_compute; reflexivity).
  assert (H2 : generate unless_five (drawn 1 stutter)
               = (Ok (js "one"), drawn 3 stutter)) by (vm_compute; reflexivity).
  assert (H3 : generate unless_five (drawn 3 stutter)
               = (Throw (Raised 1), drawn 5 stutter)) by (vm_compute; reflexivity).
  split; [split; [exact H1|] | split; [exact H2 | split; [exact H3|]]].
  - exact (proj1 (map2_stops_at_first_failure unless_five unless_five
                    (fun a b => ret (a ++ b)) (drawn 1 stutter)) _ _ H1).
  - exact (proj2 (map2_stops_at_first_failure unless_five unless_five
                    (fun a b => ret (a ++ b)) stutter) _ _ _ _ H2 H3).
Defined.

(** ** [array] of a [constant] *)

Section ArrayOfConstant.

Variable exponentiate : number -> number -> number.

Hypothesis exponentiate_unit :
  forall x, unit_interval x = true -> unit_interval (exponentiate x 30) = true.

(** For samples in [[0, 1)], [array(constant(v))] returns [n < 100] copies of
    [v] and draws [n + 1] samples: one for the length and one, ignored, for
    each copy. *)
Theorem array_of_constant (U A : Type) (v : A) (w : world U) :
  fair (rand w) ->
  exists n : nat,
    (n < 100)%nat /\
    generate (array exponentiate (constant v)) w
    = (Ok (repeat v n), drawn (Datatypes.S n) w).
Proof.
  intros F.
  destruct (hundredfold_floor _ (exponentiate_unit _ (fair_upcoming w 0 F)))
    as (n & Hn & I).
  exists n. split; [exact Hn|].
  unfold generate at 1. rewrite (bind_ok _ _ _ (Math_random_draws w)).
  unfold array, generator.
  rewrite (bind_ok _ _ _ (Array_fill_null_ok _ _ I Hn)).
  rewrite (Array_map_draws (generate (constant v)) (fun _ => v)
             (fun w' => eq_refl) n (drawn 1 w)).
  rewrite drawn_drawn. f_equal.
  - f_equal. clear. generalize 0%nat.
    induction n as [|n IH]; intros k; simpl; [reflexivity | rewrite IH; reflexivity].
  - f_equal. f_equal. lia.
Qed.

End ArrayOfConstant.

Lemma array_of_constant_witness :
  fair (rand brink) /\
  exists n : nat,
    (n < 100)%nat /\
    generate (array power_by_products (constant 7%Z)) brink
    = (Ok (repeat 7%Z n), drawn (Datatypes.S n) brink).
Proof.
  split; [exact brink_fair|].
  exact (array_of_constant power_by_products power_by_products_unit 7%Z
           brink brink_fair).
Defined.

(* ================================================================= *)
(** * Further properties of the harness *)

Lemma intRange_one_draw (U : Type) (min max : number) :
  one_draw (U := U) (intRange min max)
           (fun p => Math_floor (p * (max + 1 - min) + min)%float).
Proof. intros w. apply intRange_generate. Qed.

Lemma upcoming_heap {U : Type} (src : Source) (h h' : U) i :
  upcoming (mkWorld src h) i = upcoming (mkWorld src h') i.
Proof. reflexivity. Qed.




(** Rounds of generating and checking that end at the first rejected
    value. *)
Lemma reject_rounds {A : Type} (g : Fuzzer nat A) (value_of : number -> A)
    (bad : A -> bool) :
  one_draw g value_of ->
  forall k n (w : world nat),
    (k < n)%nat ->
    (forall i, (i < k)%nat -> bad (value_of (upcoming w i)) = false) ->
    bad (value_of (upcoming w k)) = true ->
    for_lt n (fun _ => a <- generate g ;; reject bad a) w
    = (Throw (Raised 0),
       mkWorld (rand (drawn (Datatypes.S k) w)) (k + heap w)).
Proof.
  intros G. induction k as [|k IH]; intros n w Hk Hpass Hbad.
  - destruct n as [|n]; [lia|]. rewrite for_lt_succ.
    apply bind_throw. rewrite (bind_ok _ _ _ (G w)).
    unfold reject. rewrite Hbad. reflexivity.
  - destruct n as [|n]; [lia|]. rewrite for_lt_succ.
    assert (S1 : (a <- generate g ;; reject bad a) w
                 = (Ok tt, mkWorld (rand (drawn 1 w)) (Datatypes.S (heap w)))).
    { rewrite (bind_ok _ _ _ (G w)). unfold reject.
      rewrite (Hpass 0%nat) by lia. reflexivity. }
    rewrite (bind_ok _ _ _ S1).
    rewrite (IH n); try lia.
    + f_equal. f_equal; simpl; [do 2 f_equal|]; lia.
    + intros i Hi. specialize (Hpass (Datatypes.S i) ltac:(lia)).
      rewrite <- Hpass. unfold upcoming. simpl. do 3 f_equal; lia.
    + rewrite <- Hbad. unfold upcoming. simpl. do 3 f_equal; lia.
Qed.

(** The batched unit of [fuzz] ends at the first value the check function
    rejects: if the values of the first [k] samples pass and the next one,
    within the 100, is rejected, the body fails after [k + 1] draws and [k]
    passed checks, and the remaining repetitions generate nothing. *)
Theorem fuzz_stops_at_first_rejection
    (A : Type) (g : Fuzzer nat A) (value_of : number -> A) (bad : A -> bool)
    (desc : js_string) (w : world nat) units :
  one_draw g value_of ->
  exists body,
    fuzz g desc (reject bad) (w, units)
    = (Ok tt, (w, units ++ [(desc, body)])) /\
    forall k w0,
      (k < 100)%nat ->
      (forall i, (i < k)%nat -> bad (value_of (upcoming w0 i)) = false) ->
      bad (value_of (upcoming w0 k)) = true ->
      body w0
      = (Throw (Raised 0),
         mkWorld (rand (drawn (Datatypes.S k) w0)) (k + heap w0)).
Proof.
  intros G. eexists. split; [reflexivity|].
  intros k w0 Hk Hpass Hbad. apply (reject_rounds bad G); assumption.
Qed.

Lemma fuzz_stops_at_first_rejection_witness :
  one_draw (U := nat) (intRange 0 9)
           (fun p => Math_floor (p * (9 + 1 - 0) + 0)%float) /\
  exists body,
    fuzz (intRange 0 9) (js "rejects 5") (reject (fun x => x =? 5)%float)
         (mkWorld (cycle [0.125; 0.5]%float) 0, [])
    = (Ok tt, (mkWorld (cycle [0.125; 0.5]%float) 0,
               [] ++ [(js "rejects 5", body)])) /\
    forall k w0,
      (k < 100)%nat ->
      (forall i, (i < k)%nat ->
         (Math_floor (upcoming w0 i * (9 + 1 - 0) + 0) =? 5)%float = false) ->
      (Math_floor (upcoming w0 k * (9 + 1 - 0) + 0) =? 5)%float = true ->
      body w0
      = (Throw (Raised 0),
         mkWorld (rand (drawn (Datatypes.S k) w0)) (k + heap w0)).
Proof.
  split; [apply intRange_one_draw|].
  exact (fuzz_stops_at_first_rejection (fun x => x =? 5)%float (js "rejects 5")
           (mkWorld (cycle [0.125; 0.5]%float) 0) []
           (intRange_one_draw 0 9)).
Defined.

(** The loop of the explained family when a generation fails in round
    [k]. *)
Lemma explained_loop_fails (U X : Type) (m : Gen U X)
    (unit_of : X -> js_string * Gen U unit) :
  forall k n w units xs w1 e w2,
    (k < n)%nat ->
    Array_map (fun _ => m) (repeat tt k) w = (Ok xs, w1) ->
    m w1 = (Throw e, w2) ->
    for_lt n (fun _ => x <- lift m ;;
                       test (fst (unit_of x)) (snd (unit_of x))) (w, units)
    = (Throw e, (w2, units ++ List.map unit_of xs)).
Proof.
  induction k as [|k IH]; intros n w units xs w1 e w2 Hk Hok Hfail.
  - destruct n as [|n]; [lia|]. simpl in Hok. inversion Hok; subst.
    rewrite for_lt_succ. unfold bind, lift. rewrite Hfail.
    simpl. rewrite app_nil_r. reflexivity.
  - destruct n as [|n]; [lia|]. simpl in Hok. unfold bind in Hok.
    destruct (m w) as [[x|e'] w'] eqn:E1; [|discriminate].
    destruct (Array_map (fun _ => m) (repeat tt k) w') as [[ys|e'] w''] eqn:E2;
      [|discriminate].
    inversion Hok; subst.
    rewrite for_lt_succ. unfold bind at 1. unfold bind at 1. unfold lift at 1.
    rewrite E1. unfold test at 1.
    rewrite (IH n w' _ ys w1 e w2 ltac:(lia) E2 Hfail).
    simpl. rewrite <- app_assoc. destruct (unit_of x); reflexivity.
Qed.

(** When the fuzzer fails in round [k + 1] of [fuzzExplained], within the
    100, the failure leaves the harness function: the units of the [k] earlier
    rounds stay registered and no later unit is. *)
Theorem fuzzExplained_keeps_units_registered_before_a_failure
    (U A : Type) (SA : ToString A) (g : Fuzzer U A) (desc : js_string)
    (f : A -> Gen U unit) (w : world U) units k values w1 e w2 :
  (k < 100)%nat ->
  generations g k w = (Ok values, w1) ->
  generate g w1 = (Throw e, w2) ->
  fuzzExplained g desc f (w, units)
  = (Throw e, (w2, units ++ List.map (fun a => (name1 desc a, f a)) values)).
Proof.
  intros Hk Hok Hfail. unfold fuzzExplained.
  apply (explained_loop_fails (generate g) (fun a => (name1 desc a, f a))
           (n := TEST_PASSES) w units Hk Hok Hfail).
Qed.

Lemma fuzzExplained_keeps_units_registered_before_a_failure_witness :
  (1 < 100)%nat /\
  generations unless_five 1 stutter = (Ok [js "one"], drawn 2 stutter) /\
  generate unless_five (drawn 2 stutter) = (Throw (Raised 1), drawn 4 stutter) /\
  fuzzExplained unless_five (js "echo") (fun _ => ret tt) (stutter, [])
  = (Throw (Raised 1),
     (drawn 4 stutter,
      [] ++ List.map (fun a => (name1 (js "echo") a, ret tt)) [js "one"])).
Proof.
  assert (L : (1 < 100)%nat) by lia.
  assert (G : generations unless_five 1 stutter
              = (Ok [js "one"], drawn 2 stutter)) by (vm_compute; reflexivity).
  assert (T : generate unless_five (drawn 2 stutter)
              = (Throw (Raised 1), drawn 4 stutter)) by (vm_compute; reflexivity).
  split; [exact L|]. split; [exact G|]. split; [exact T|].
  exact (fuzzExplained_keeps_units_registered_before_a_failure
           _ unless_five (js "echo") (fun _ => ret tt) stutter [] L G T).
Defined.

(* ================================================================= *)
(** * Further properties of [int], [float] and [array] *)

Section Weights.

Variable exponentiate : number -> number -> number.

Hypothesis exponentiate_unit :
  forall x, unit_interval x = true -> unit_interval (exponentiate x 30) = true.

(** The value [int] computes from a sample in [[0, 1)]. *)
Lemma int_value_signed p :
  unit_interval p = true ->
  exists z,
    integer_value (if (p <? 0.5)%float
                   then Math_ceil (exponentiate p 30 * MIN_SAFE_INTEGER)%float
                   else Math_floor (exponentiate p 30 * MAX_SAFE_INTEGER)%float)
    = Some z /\
    if (p <? 0.5)%float
    then (-9007199254740991 <= z <= 0)%Z
    else (0 <= z <= 9007199254740991)%Z.
Proof.
  intros Hp. pose proof (within_unit _ (exponentiate_unit _ Hp)) as W.
  destruct (p <? 0.5)%float.
  - destruct (int_negative_branch _ W) as (z & E & Bz).
    exists z. split; [apply integer_value_scaled; exact E | exact Bz].
  - destruct (int_positive_branch _ W) as (z & E & Bz).
    exists z. split; [apply integer_value_scaled; exact E | exact Bz].
Qed.

(** For samples in [[0, 1)], what [int] returns is an integer: not positive
    when its sample is below 0.5, not negative otherwise, and of at most 53
    bits in both cases. *)
Theorem int_is_an_integer_signed_by_its_sample (U : Type) (w : world U) :
  fair (rand w) ->
  exists v z,
    generate (int exponentiate) w = (Ok v, drawn 1 w) /\
    integer_value v = Some z /\
    if (upcoming w 0 <? 0.5)%float
    then (-9007199254740991 <= z <= 0)%Z
    else (0 <= z <= 9007199254740991)%Z.
Proof.
  intros F. destruct (int_value_signed _ (fair_upcoming w 0 F)) as (z & V & B).
  eexists; exists z. split; [apply int_generate|]. split; assumption.
Qed.

(** [float] draws its own sample first and lets [int] draw the next one. *)
Lemma float_generate (U : Type) (w : world U) i :
  generate (int exponentiate) (drawn 1 w) = (Ok i, drawn 2 w) ->
  generate (float exponentiate) w = (Ok (i + upcoming w 0)%float, drawn 2 w).
Proof.
  intros I. unfold generate at 1. rewrite (bind_ok _ _ _ (Math_random_draws w)).
  unfold float, generator. rewrite (bind_ok _ _ _ I). reflexivity.
Qed.

(** For samples in [[0, 1)], [float] returns the sum of the integer [int]
    generates from the second sample and its own, first, sample; the sum lies
    between that integer and the next one, both included: the fraction is
    rounded away where the integer leaves no bits for it. *)
Theorem float_is_within_one_of_its_int (U : Type) (w : world U) :
  fair (rand w) ->
  exists i v,
    generate (int exponentiate) (drawn 1 w) = (Ok i, drawn 2 w) /\
    generate (float exponentiate) w = (Ok v, drawn 2 w) /\
    v = (i + upcoming w 0)%float /\
    (i <=? v)%float = true /\ (v <=? i + 1)%float = true.
Proof.
  intros F.
  destruct (int_value_signed _ (fair_upcoming w 1 F)) as (z & V & B).
  pose proof (int_generate exponentiate (drawn 1 w)) as I.
  rewrite drawn_drawn in I. simpl Nat.add in I.
  change (upcoming (drawn 1 w) 0) with (upcoming w 1) in I.
  eexists; eexists.
  split; [exact I|]. split; [apply float_generate; exact I|].
  split; [reflexivity|].
  assert (Hz : (Z.abs z < 2 ^ 53)%Z)
    by (destruct (upcoming w 1 <? 0.5)%float; lia).
  clear B I.
  pose proof (scaled_of_integer_value _ _ V) as Si.
  destruct (within_unit _ (fair_upcoming w 0 F)) as (P & HP & BP).
  pose proof unit_scale_pos as Pu.
  destruct (integer_plus_fraction _ _ z P Si Hz HP
              ltac:(unfold below_one, unit_scale in *; lia))
    as (X & SX & BX & _).
  destruct (integer_plus_fraction _ _ z unit_scale Si Hz scaled_1 ltac:(lia))
    as (Y & SY & _ & EY).
  split.
  - rewrite (leb_scaled _ _ _ _ Si SX). apply Z.leb_le. lia.
  - rewrite (leb_scaled _ _ _ _ SX SY). apply Z.leb_le.
    rewrite (EY eq_refl). lia.
Qed.

Hypothesis exponentiate_small :
  forall x, unit_interval x = true -> (x <? 0.5)%float = true ->
            (exponentiate x 30 <=? 0x1p-30)%float = true.

(** For samples in [[0, 1)], [array(g)] returns the empty array, and runs no
    generation of [g], whenever its own sample is below 0.5: the weight
    [p ** 30] is then at most [2^-30], and [floor(100 * 2^-30)] is 0. *)
Theorem array_is_empty_for_samples_below_half
    (U A : Type) (g : Fuzzer U A) (w : world U) :
  fair (rand w) ->
  (upcoming w 0 <? 0.5)%float = true ->
  generate (array exponentiate g) w = (Ok [], drawn 1 w).
Proof.
  intros F Half. pose proof (fair_upcoming w 0 F) as Hp.
  pose proof (within_unit _ (exponentiate_unit _ Hp)) as W.
  pose proof (within_leb _ _ _ _ _ W scaled_half_power
                (@exponentiate_small (upcoming w 0) Hp Half)) as W'.
  pose proof (hundredfold_small _
                (within_weaken _ _ _ _ _ W' (Z.le_refl 0) (Z.le_min_r _ _))) as I.
  unfold generate. rewrite (bind_ok _ _ _ (Math_random_draws w)).
  unfold array, generator.
  change (Some 0%Z) with (Some (Z.of_nat 0)) in I.
  rewrite (bind_ok _ _ _ (Array_fill_null_ok _ _ I ltac:(lia))). reflexivity.
Qed.

End Weights.

Lemma int_is_an_integer_signed_by_its_sample_witness :
  fair (rand quarters) /\
  exists v z,
    generate (int power_by_products) quarters = (Ok v, drawn 1 quarters) /\
    integer_value v = Some z /\
    if (upcoming quarters 0 <? 0.5)%float
    then (-9007199254740991 <= z <= 0)%Z
    else (0 <= z <= 9007199254740991)%Z.
Proof.
  split; [exact quarters_fair|].
  exact (int_is_an_integer_signed_by_its_sample power_by_products
           power_by_products_unit quarters quarters_fair).
Defined.

Lemma float_is_within_one_of_its_int_witness :
  fair (rand brink) /\
  exists i v,
    generate (int power_by_products) (drawn 1 brink) = (Ok i, drawn 2 brink) /\
    generate (float power_by_products) brink = (Ok v, drawn 2 brink) /\
    v = (i + upcoming brink 0)%float /\
    (i <=? v)%float = true /\ (v <=? i + 1)%float = true.
Proof.
  split; [exact brink_fair|].
  exact (float_is_within_one_of_its_int power_by_products
           power_by_products_unit brink brink_fair).
Defined.

Lemma array_is_empty_for_samples_below_half_witness :
  fair (rand quarters) /\
  (upcoming quarters 0 <? 0.5)%float = true /\
  generate (array power_by_products (intRange 0 9)) quarters
  = (Ok [], drawn 1 quarters).
Proof.
  split; [exact quarters_fair|]. split; [reflexivity|].
  exact (array_is_empty_for_samples_below_half power_by_products
           power_by_products_unit power_by_products_half (intRange 0 9)
           quarters quarters_fair eq_refl).
Defined.
